(** * deebee: versioned key/state storage over a directory abstraction

    A shallow embedding of [deebee.go]: [Open], [DB.Writer],
    [DB.nextVersionFilename] and [DB.Reader], written as programs that
    call the methods of the [Dir] interface, together with the helpers the
    file uses and an in-memory directory to run the programs against. *)

From Stdlib Require Import ZArith List String Ascii Bool Lia DecimalString.
From Stdlib Require Import DecimalN DecimalZ.
From stdpp Require Import gmap strings list.

Open Scope Z_scope.

(** ** Errors *)

(** Go's [error] values that the package produces or passes on.  A nil
    [error] is [None : option error].  Equality is structural: every
    error value is taken to be comparable, as [errors.Is] needs it. *)
Inductive error : Type :=
| ClientError (msg : string)                 (* newClientError(msg) *)
| DataNotFound                               (* &dataNotFoundError{} *)
| ErrorString (msg : string)                 (* errors.New(msg) *)
| WrapError (prefix : string) (cause : error) (* fmt.Errorf(prefix + "%w", cause) *)
| ForeignError (name : string).              (* an error of another package *)

#[global] Instance error_eq_dec : EqDecision error.
Proof. solve_decision. Defined.

(** A Go result pair [(T, error)] in which exactly one side is set. *)
Inductive result (A : Type) : Type :=
| Ok (a : A)
| Err (e : error).
Arguments Ok {A} a.
Arguments Err {A} e.

(** Modelled from the spec: [newClientError] is absent from the sources;
    the error taxonomy makes it the constructor of the ClientError
    variant. *)
Definition newClientError (msg : string) : error := ClientError msg.

(** Modelled from the spec: [IsClientError] is absent from the sources;
    the classification predicates match the variant tag ("is this a
    caller-input error"). *)
Definition IsClientError (err : error) : bool :=
  match err with
  | ClientError _ => true
  | _ => false
  end.

(** Modelled from the spec: [IsDataNotFound] is absent from the sources;
    "is this a not-found condition", again by the tag. *)
Definition IsDataNotFound (err : error) : bool :=
  match err with
  | DataNotFound => true
  | _ => false
  end.

(** [errors.Unwrap] and [errors.Is] of the Go standard library: walk the
    chain of wrapped causes and compare each link with the target. *)
Definition errors_Unwrap (err : error) : option error :=
  match err with
  | WrapError _ cause => Some cause
  | _ => None
  end.

Fixpoint errors_Is (err target : error) : bool :=
  if bool_decide (err = target) then true
  else match err with
       | WrapError _ cause => errors_Is cause target
       | _ => false
       end.

(** ** Key validation *)

(** The ASCII white space characters: tab, line feed, vertical tab, form
    feed, carriage return and space. *)
Definition isSpace (c : ascii) : bool :=
  let n := nat_of_ascii c in
  ((9 <=? n)%nat && (n <=? 13)%nat) || (n =? 32)%nat.

Definition firstByte (s : string) : option ascii :=
  match s with
  | EmptyString => None
  | String c _ => Some c
  end.

Fixpoint lastByte (s : string) : option ascii :=
  match s with
  | EmptyString => None
  | String c EmptyString => Some c
  | String _ rest => lastByte rest
  end.

Fixpoint containsByte (c : ascii) (s : string) : bool :=
  match s with
  | EmptyString => false
  | String x rest => if Ascii.eqb x c then true else containsByte c rest
  end.

Definition spaceAt (o : option ascii) : bool :=
  match o with
  | Some c => isSpace c
  | None => false
  end.

(** Modelled from the spec: [validateKey] is absent from the sources.  The
    Key Validator rejects the empty string, a string with leading or
    trailing white space, the strings "." and "..", and a string holding a
    forward slash or a backslash; every other string is accepted.  The
    texts of the messages are not given by the spec. *)
Definition validateKey (key : string) : option error :=
  if String.eqb key EmptyString then
    Some (newClientError "empty key is not allowed")
  else if spaceAt (firstByte key) || spaceAt (lastByte key) then
    Some (newClientError "key starts or ends with a white space")
  else if String.eqb key "." || String.eqb key ".." then
    Some (newClientError "key is a relative directory name")
  else if containsByte "/" key || containsByte "\" key then
    Some (newClientError "key contains a file separator")
  else None.

(** The rejected keys, in the words of the spec. *)
Definition rejected_key (key : string) : Prop :=
  key = EmptyString
  \/ (exists c rest, key = String c rest /\ isSpace c = true)
  \/ (exists front c, key = front +:+ String c EmptyString /\ isSpace c = true)
  \/ key = "."%string
  \/ key = ".."%string
  \/ (exists a b, key = a +:+ String "/" b)
  \/ (exists a b, key = a +:+ String "\" b).

(** The checks of [validateKey], all negative. *)
Definition passes (key : string) : Prop :=
  key <> EmptyString
  /\ spaceAt (firstByte key) = false
  /\ spaceAt (lastByte key) = false
  /\ key <> "."%string /\ key <> ".."%string
  /\ containsByte "/" key = false
  /\ containsByte "\" key = false.

(** The invalid keys of the test suite ([invalidKeys]). *)
Definition invalidKeys : list string :=
  [EmptyString; " a"; "a "; "."; ".."; "/"; "a/b"; "\"; "a\b"]%string.

(** ** Version file names *)

(** [fmt.Sprintf("%d", v)]: the decimal text of an integer. *)
Definition Sprintf_d (v : Z) : string := NilZero.string_of_int (Z.to_int v).

(** Go's [int] on the 64-bit platforms the project is built for: an
    addition wraps around in two's complement. *)
Definition intSize : Z := 64.
Definition wrapInt (z : Z) : Z :=
  (z + 2 ^ (intSize - 1)) mod 2 ^ intSize - 2 ^ (intSize - 1).
Definition maxInt : Z := 2 ^ (intSize - 1) - 1.

(** A listed file together with the version its name stands for. *)
Record filename : Type := { name : string; number : Z }.

(** Modelled from the spec: parsing a file name "as a version integer",
    a version being "a non-negative integer, serialized as its decimal
    string form": a non-empty run of decimal digits. *)
Definition parseVersion (file : string) : option Z :=
  match NilZero.uint_of_string file with
  | Some d => Some (Z.of_N (N.of_uint d))
  | None => None
  end.

(** Modelled from the spec: [toFilenames] is absent from the sources; it
    keeps the entries that parse and discards the others. *)
Fixpoint toFilenames (files : list string) : list filename :=
  match files with
  | [] => []
  | file :: rest =>
      match parseVersion file with
      | Some v => {| name := file; number := v |} :: toFilenames rest
      | None => toFilenames rest
      end
  end.

(** Modelled from the spec: [youngestFilename] is absent from the sources;
    it selects the entry with the numerically greatest version and reports
    whether there is one. *)
Fixpoint youngestFilename (names : list filename) : option filename :=
  match names with
  | [] => None
  | f :: rest =>
      match youngestFilename rest with
      | Some g => if number f <? number g then Some g else Some f
      | None => Some f
      end
  end.

(** ** Programs over the Dir interface *)

Section Programs.

(** The values behind the interfaces: a [Dir], the [io.ReadCloser] a
    [Dir] opens and the [FileWriter] it creates. *)
Context {D R W : Type}.

(** A call of one method of the [Dir] interface, indexed by the type of
    what the method returns. *)
Inductive DirCall : Type -> Type :=
| CallFileReader (d : D) (file : string) : DirCall (result R)
| CallFileWriter (d : D) (file : string) : DirCall (result W)
| CallMkdir (d : D) : DirCall (option error)
| CallDir (d : D) (sub : string) : DirCall D
| CallExists (d : D) : DirCall (result bool)
| CallListFiles (d : D) : DirCall (result (list string)).

(** A computation that returns a value after finitely many calls of
    [Dir] methods. *)
Inductive io (A : Type) : Type :=
| Ret (a : A)
| Call {X : Type} (c : DirCall X) (k : X -> io A).
Arguments Ret {A} a.
Arguments Call {A X} c k.

Fixpoint bind {A B : Type} (m : io A) (f : A -> io B) : io B :=
  match m with
  | Ret a => f a
  | Call c k => Call c (fun x => bind (k x) f)
  end.

Definition call {X : Type} (c : DirCall X) : io X := Call c Ret.

Notation "x <- m ;; k" := (bind m (fun x => k))
  (at level 100, m at next level, right associativity).

(** [DB] stores states.  The mutex only serialises the increment of
    [version]; a sequential run has no use for it. *)
Record DB : Type := { dir : D; version : Z }.

(** An [Option]: nil, or a function that changes the handle (possibly
    calling its [Dir]) and reports an error or nil. *)
Definition Option : Type := option (DB -> io (DB * option error)).

(** The [%s] rendering of a [Dir] in a message. *)
Variable dirString : D -> string.

(** The loop of [Open] over its options, on the handle [s]. *)
Fixpoint applyOptions (s : DB) (options : list Option) : io (result DB) :=
  match options with
  | [] => Ret (Ok s)
  | None :: rest => applyOptions s rest
  | Some apply :: rest =>
      r <- apply s ;;
      match snd r with
      | Some err => Ret (Err (WrapError "applying option failed: " err))
      | None => applyOptions (fst r) rest
      end
  end.

Definition Open (d : option D) (options : list Option) : io (result DB) :=
  match d with
  | None => Ret (Err (ErrorString "nil dir"))
  | Some d =>
      r <- call (CallExists d) ;;
      match r with
      | Err err => Ret (Err err)
      | Ok dirExists =>
          if negb dirExists then
            Ret (Err (newClientError
                        ("database dir " +:+ dirString d +:+ " not found")))
          else
            applyOptions {| dir := d; version := 0 |} options
      end
  end.

Definition nextVersionFilename (s : DB) : string * DB :=
  (Sprintf_d (version s),
   {| dir := dir s; version := wrapInt (version s + 1) |}).

(** [Writer] returns the stream (or the error) and the handle as the
    call leaves it. *)
Definition Writer (s : DB) (key : string) : io (result W * DB) :=
  match validateKey key with
  | Some err => Ret (Err err, s)
  | None =>
      stateDir <- call (CallDir (dir s) key) ;;
      r <- call (CallExists stateDir) ;;
      match r with
      | Err err => Ret (Err err, s)
      | Ok stateDirExists =>
          made <- (if negb stateDirExists
                   then call (CallMkdir stateDir) else Ret None) ;;
          match made with
          | Some err => Ret (Err err, s)
          | None =>
              let (file, s') := nextVersionFilename s in
              w <- call (CallFileWriter stateDir file) ;;
              Ret (w, s')
          end
      end
  end.

Definition Reader (s : DB) (key : string) : io (result R) :=
  match validateKey key with
  | Some err => Ret (Err err)
  | None =>
      stateDir <- call (CallDir (dir s) key) ;;
      r <- call (CallExists stateDir) ;;
      match r with
      | Err err => Ret (Err err)
      | Ok stateDirExists =>
          if negb stateDirExists then Ret (Err DataNotFound)
          else
            l <- call (CallListFiles stateDir) ;;
            match l with
            | Err err => Ret (Err err)
            | Ok files =>
                match youngestFilename (toFilenames files) with
                | None => Ret (Err DataNotFound)
                | Some dataFile => call (CallFileReader stateDir (name dataFile))
                end
            end
      end
  end.

(** *** Running a program against an implementation of [Dir] *)

(** What a run records of a call. *)
Inductive event : Type :=
| EvFileReader (d : D) (file : string)
| EvFileWriter (d : D) (file : string)
| EvMkdir (d : D)
| EvDir (d : D) (sub : string)
| EvExists (d : D)
| EvListFiles (d : D).

Definition event_of {X : Type} (c : DirCall X) : event :=
  match c with
  | CallFileReader d file => EvFileReader d file
  | CallFileWriter d file => EvFileWriter d file
  | CallMkdir d => EvMkdir d
  | CallDir d sub => EvDir d sub
  | CallExists d => EvExists d
  | CallListFiles d => EvListFiles d
  end.

(** An implementation answers each call from the state [S] of the
    backing store and may change that state. *)
Context {S : Type}.
Definition handler : Type := forall X : Type, DirCall X -> S -> X * S.

Variable h : handler.

(** The value a program returns and the store it leaves. *)
Fixpoint run {A : Type} (m : io A) (st : S) : A * S :=
  match m with
  | Ret a => (a, st)
  | Call c k => let (x, st') := h _ c st in run (k x) st'
  end.

(** The calls a program makes, in order. *)
Fixpoint trace {A : Type} (m : io A) (st : S) : list event :=
  match m with
  | Ret _ => []
  | Call c k => event_of c :: (let (x, st') := h _ c st in trace (k x) st')
  end.

(** The file names a program asks [FileWriter] to create. *)
Definition created (ev : event) : option string :=
  match ev with
  | EvFileWriter _ file => Some file
  | _ => None
  end.

(** The file a call asks [FileReader] to open. *)
Definition readFile (ev : event) : option string :=
  match ev with
  | EvFileReader _ file => Some file
  | _ => None
  end.

(** The calls that ask nothing of a [Dir] but to look: all except [Mkdir]
    and [FileWriter]. *)
Definition readOnly (ev : event) : bool :=
  match ev with
  | EvMkdir _ | EvFileWriter _ _ => false
  | _ => true
  end.

(** A series of [Writer] calls on one handle.  Each call comes with the
    state in which it finds the backing store, so that anything may
    happen to the store between two calls.  The result lists, call by
    call, the version file names handed to [FileWriter]. *)
Fixpoint writerCalls (s : DB) (calls : list (string * S)) : list string * DB :=
  match calls with
  | [] => ([], s)
  | (key, st) :: rest =>
      let files := omap created (trace (Writer s key) st) in
      let s' := snd (fst (run (Writer s key) st)) in
      let (more, s'') := writerCalls s' rest in
      (files ++ more, s'')
  end.

End Programs.

Arguments Ret {D R W A} a.
Arguments Call {D R W A X} c k.
Arguments io : clear implicits.
Arguments DB : clear implicits.
Arguments Option : clear implicits.
Arguments DirCall : clear implicits.
Arguments event : clear implicits.
Arguments handler : clear implicits.

(** ** An in-memory directory *)

Module MemDir.

(** Modelled from the spec: the test double of the Directory abstraction
    (package [fake]) is absent from the sources.  It follows the contract
    the [Dir] interface documents: a directory is named by its path; the
    store maps each existing directory to its files; [FileReader] fails on
    an absent file, [FileWriter] on a present one; [Mkdir] does nothing
    to an existing directory; [Dir] does not touch the store. *)
Abbreviation path := (list string).
Abbreviation bytes := (list Byte.byte).
Abbreviation files := (gmap string bytes).
Abbreviation store := (gmap path (gmap string bytes)).

(** A read stream holds the content it will deliver; a write stream names
    the file it appends to. *)
Abbreviation reader := (list Byte.byte).
Abbreviation writer := (list string * string)%type.

Definition ReadAll (r : reader) : bytes := r.

Definition fileReader (d : path) (file : string) (st : store) : result reader :=
  match st !! d with
  | Some fs =>
      match fs !! file with
      | Some content => Ok content
      | None => Err (ForeignError "file does not exist")
      end
  | None => Err (ForeignError "directory does not exist")
  end.

Definition fileWriter (d : path) (file : string) (st : store)
  : result writer * store :=
  match st !! d with
  | Some fs =>
      match fs !! file with
      | Some _ => (Err (ForeignError "file already exists"), st)
      | None => (Ok (d, file), <[d := <[file := []]> fs]> st)
      end
  | None => (Err (ForeignError "directory does not exist"), st)
  end.

Definition mkdir (d : path) (st : store) : store :=
  match st !! d with
  | Some _ => st
  | None => <[d := ∅]> st
  end.

Definition exists_ (d : path) (st : store) : bool :=
  match st !! d with
  | Some _ => true
  | None => false
  end.

Definition listing (fs : files) : list string := map fst (map_to_list fs).

Definition listFiles (d : path) (st : store) : result (list string) :=
  match st !! d with
  | Some fs => Ok (listing fs)
  | None => Err (ForeignError "directory does not exist")
  end.

Definition handle : handler path reader writer store :=
  fun X c =>
    match c in DirCall _ _ _ X return store -> X * store with
    | CallFileReader d file => fun st => (fileReader d file st, st)
    | CallFileWriter d file => fun st => fileWriter d file st
    | CallMkdir d => fun st => (None, mkdir d st)
    | CallDir d sub => fun st => (d ++ [sub], st)
    | CallExists d => fun st => (Ok (exists_ d st), st)
    | CallListFiles d => fun st => (listFiles d st, st)
    end.

(** [Write] on a write stream appends to its file; [Close] (and [Sync])
    leave the store as it is. *)
Definition Write (w : writer) (p : bytes) (st : store) : store :=
  match st !! fst w with
  | Some fs =>
      match fs !! snd w with
      | Some content => <[fst w := <[snd w := content ++ p]> fs]> st
      | None => st
      end
  | None => st
  end.

Definition Close (w : writer) (st : store) : store := st.

Definition dirString (d : path) : string := String.concat "/" d.

(** What the tests' [writeData] does: open a writer for the key, write
    the data, close.  The handle and the store are returned as the calls
    leave them. *)
Definition writeData (s : DB path) (key : string) (data : bytes) (st : store)
  : option error * DB path * store :=
  match run handle (Writer s key) st with
  | ((Ok w, s'), st') => (None, s', Close w (Write w data st'))
  | ((Err e, s'), st') => (Some e, s', st')
  end.

(** What the tests' [readData] does: open a reader for the key and read
    it to its end. *)
Definition readData (s : DB path) (key : string) (st : store) : result bytes :=
  match fst (run handle (Reader (W := writer) s key) st) with
  | Ok r => Ok (ReadAll r)
  | Err e => Err e
  end.

(** A series of [writeData] on one handle, whether they succeed or not. *)
Fixpoint writeAll (s : DB path) (writes : list (string * bytes)) (st : store)
  : DB path * store :=
  match writes with
  | [] => (s, st)
  | (key, data) :: rest =>
      let '(_, s', st') := writeData s key data st in writeAll s' rest st'
  end.

(** The handle's counter is ahead of every version stored under a key
    directory [d]. *)
Definition ahead (s : DB path) (d : path) (st : store) : Prop :=
  0 <= version s /\
  forall fs file v,
    st !! d = Some fs -> In file (listing fs) -> parseVersion file = Some v ->
    v < version s.

(** The handle a successful [Open] of [root] returns. *)
Definition opened (root : path) : DB path := {| dir := root; version := 0 |}.

(** The directory of a key under the handle's directory. *)
Definition stateDir (s : DB path) (key : string) : path := dir s ++ [key].

(** The files of a directory, none if the directory does not exist. *)
Definition filesOf (d : path) (st : store) : files := default ∅ (st !! d).

(** *** Checksums

    [deebee.go] knows no checksum: [DB] has no field for a provider and
    [Reader] looks at no byte of a version.  A provider is seen here from
    the reading side, as the test it gives rise to: do the bytes stored
    for a version carry a checksum that matches their payload? *)




(** The bytes "data" followed by their sum, and the same with one payload
    byte changed. *)
Definition intactData : bytes := [Byte.x64; Byte.x61; Byte.x74; Byte.x61; Byte.x9a].
Definition corruptData : bytes := [Byte.x64; Byte.x61; Byte.x74; Byte.x62; Byte.x9a].

(** *** Stores of the examples *)

(** The backing directory [db], existing and empty, as the tests start:
    no key has been written; and the bytes "data" of the tests. *)
Definition db : path := ["db"%string].
Definition emptyStore : store := {[ db := ∅ ]}.
Definition data : bytes := [Byte.x64; Byte.x61; Byte.x74; Byte.x61].

(** No backing directory at all. *)
Definition noStore : store := ∅.

(** Key "state" with an intact version 0, a corrupted version 1 and a
    foreign file. *)
Definition corruptYoungest : store :=
  <[ ["db"; "state"]%string :=
       {[ "0"%string := intactData; "1"%string := corruptData;
          "notes.txt"%string := [] ]} ]> emptyStore.


(** The bytes "old", and the store after a first handle, opened on the
    empty directory, has written key "other" and then key "state" (its
    version 1); the same with two writes to "other" first (version 2). *)
Definition olderData : bytes := [Byte.x6f; Byte.x6c; Byte.x64].
Definition firstHandleStore : store :=
  snd (writeAll (opened db) [("other", []); ("state", olderData)]%string emptyStore).
Definition firstHandleStore2 : store :=
  snd (writeAll (opened db)
         [("other", []); ("other", []); ("state", olderData)]%string emptyStore).

(** The round trip and the two writes, for any handle and store. *)
Definition round_trip_always : Prop :=
  forall (s : DB path) (key : string) (payload : bytes) (st : store)
         (s' : DB path) (st' : store),
    validateKey key = None ->
    writeData s key payload st = (None, s', st') ->
    readData s' key st' = Ok payload.

Definition second_write_always : Prop :=
  forall (s : DB path) (key : string) (first second : bytes) (st : store)
         (s1 s2 : DB path) (st1 st2 : store),
    validateKey key = None ->
    writeData s key first st = (None, s1, st1) ->
    writeData s1 key second st1 = (None, s2, st2) ->
    readData s2 key st2 = Ok second.

(** Key "state" as another handle left it, with a version 5. *)
Definition reopenedStore : store :=
  <[ ["db"; "state"]%string := {[ "5"%string := corruptData ]} ]> emptyStore.

(** The bytes a series of writes leaves as the latest for a key, if it
    wrote the key at all. *)
Fixpoint lastWrite (key : string) (writes : list (string * bytes)) : option bytes :=
  match writes with
  | [] => None
  | (k, payload) :: rest =>
      match lastWrite key rest with
      | Some later => Some later
      | None => if String.eqb k key then Some payload else None
      end
  end.

(** A directory with faults: the in-memory directory, except that
    [Exists], [Mkdir] or [ListFiles] fail with an input/output error when
    asked to. *)
Definition ioError : error := ForeignError "input/output error".
Definition faulty (failExists failMkdir failList : bool)
  : handler path reader writer store :=
  fun X c =>
    match c in DirCall _ _ _ X return store -> X * store with
    | CallFileReader d file => handle _ (CallFileReader d file)
    | CallFileWriter d file => handle _ (CallFileWriter d file)
    | CallMkdir d =>
        fun st => if failMkdir then (Some ioError, st) else handle _ (CallMkdir d) st
    | CallDir d sub => handle _ (CallDir d sub)
    | CallExists d =>
        fun st => if failExists then (Err ioError, st) else handle _ (CallExists d) st
    | CallListFiles d =>
        fun st => if failList then (Err ioError, st) else handle _ (CallListFiles d) st
    end.

(** An option that counts one version as used, and one that fails. *)
Definition skipVersion : Option path reader writer :=
  Some (fun s => Ret ({| dir := dir s; version := wrapInt (version s + 1) |}, None)).
Definition failing (s : DB path) : io path reader writer (DB path * option error) :=
  Ret (s, Some (ForeignError "test-error")).
Definition failingOption : Option path reader writer := Some failing.

(** An option that fails with an error that wraps the one of the tests,
    and a series of writes: key "a" twice, key "b", and a rejected key. *)
Definition failingDeep (s : DB path) : io path reader writer (DB path * option error) :=
  Ret (s, Some (WrapError "option: " (ForeignError "test-error"))).
Definition someWrites : list (string * bytes) :=
  [("a", data); ("b", intactData); ("a", olderData); ("a/b", corruptData)]%string.

End MemDir.

(** * Properties *)

(** ** Strings *)

Lemma lastByte_cons (c : ascii) (s : string) :
  lastByte (String c s) = match s with EmptyString => Some c | _ => lastByte s end.
Proof. destruct s; reflexivity. Qed.

Lemma lastByte_app (front : string) (c : ascii) :
  lastByte (front +:+ String c EmptyString) = Some c.
Proof.
  induction front as [|x front IH]; [reflexivity|].
  change (String x front +:+ String c EmptyString)
    with (String x (front +:+ String c EmptyString)).
  rewrite lastByte_cons, IH. destruct front; reflexivity.
Qed.

Lemma lastByte_split (s : string) (c : ascii) :
  lastByte s = Some c -> exists front, s = front +:+ String c EmptyString.
Proof.
  induction s as [|x s IH]; [discriminate|].
  rewrite lastByte_cons. destruct s as [|y s].
  - intros [= ->]. exists EmptyString. reflexivity.
  - intros Hl. destruct (IH Hl) as [front ->].
    exists (String x front). reflexivity.
Qed.

Lemma containsByte_app (c : ascii) (a b : string) :
  containsByte c (a +:+ String c b) = true.
Proof.
  induction a as [|x a IH]; simpl.
  - now rewrite Ascii.eqb_refl.
  - rewrite IH. now destruct (Ascii.eqb x c).
Qed.

Lemma containsByte_split (c : ascii) (s : string) :
  containsByte c s = true -> exists a b, s = a +:+ String c b.
Proof.
  induction s as [|x s IH]; [discriminate|].
  cbn [containsByte]. destruct (Ascii.eqb_spec x c) as [->|_].
  - intros _. exists EmptyString, s. reflexivity.
  - intros Hc. destruct (IH Hc) as (a & b & ->).
    exists (String x a), b. reflexivity.
Qed.

(** ** The key validator *)

Lemma validateKey_None (key : string) : validateKey key = None <-> passes key.
Proof.
  unfold validateKey, passes.
  destruct (String.eqb_spec key EmptyString) as [->|Hne].
  { split; [discriminate|]. intros [H _]. now contradiction H. }
  destruct (spaceAt (firstByte key)); cbn [orb].
  { split; [discriminate|]. intros (_ & H & _). discriminate. }
  destruct (spaceAt (lastByte key)).
  { split; [discriminate|]. intros (_ & _ & H & _). discriminate. }
  destruct (String.eqb_spec key ".") as [->|Hd]; cbn [orb].
  { split; [discriminate|]. intros (_ & _ & _ & H & _). now contradiction H. }
  destruct (String.eqb_spec key "..") as [->|Hdd].
  { split; [discriminate|]. intros (_ & _ & _ & _ & H & _). now contradiction H. }
  destruct (containsByte "/" key); cbn [orb].
  { split; [discriminate|]. intros (_ & _ & _ & _ & _ & H & _). discriminate. }
  destruct (containsByte "\" key).
  { split; [discriminate|]. intros (_ & _ & _ & _ & _ & _ & H). discriminate. }
  split; [intros _|reflexivity]. repeat split; assumption.
Qed.

Lemma validateKey_client (key : string) (e : error) :
  validateKey key = Some e -> exists msg, e = ClientError msg.
Proof.
  unfold validateKey, newClientError.
  repeat match goal with
         | |- context [if ?b then _ else _] => destruct b
         end; intros [= <-]; eauto.
Qed.

Lemma rejected_key_fails (key : string) : rejected_key key <-> ~ passes key.
Proof.
  unfold passes. split.
  - intros [->|[(c & rest & -> & Hs)|[(front & c & -> & Hs)|[->|[->|[(a & b & ->)|(a & b & ->)]]]]]];
      intros (H0 & H1 & H2 & H3 & H4 & H5 & H6).
    + now contradiction H0.
    + cbn in H1. congruence.
    + rewrite lastByte_app in H2. cbn in H2. congruence.
    + now contradiction H3.
    + now contradiction H4.
    + rewrite containsByte_app in H5. discriminate.
    + rewrite containsByte_app in H6. discriminate.
  - intros Hn. unfold rejected_key.
    destruct key as [|c rest] eqn:Ek; [now left|]. rewrite <- Ek in *.
    destruct (spaceAt (firstByte key)) eqn:E1.
    { right; left. subst key. cbn in E1. eauto. }
    destruct (spaceAt (lastByte key)) eqn:E2.
    { right; right; left. unfold spaceAt in E2.
      destruct (lastByte key) as [x|] eqn:El; [|discriminate].
      destruct (lastByte_split _ _ El) as [front ->]. eauto. }
    destruct (string_dec key ".") as [->|Hd]; [tauto|].
    destruct (string_dec key "..") as [->|Hdd]; [tauto|].
    destruct (containsByte "/" key) eqn:E3.
    { destruct (containsByte_split _ _ E3) as (a & b & ->). eauto 10. }
    destruct (containsByte "\" key) eqn:E4.
    { destruct (containsByte_split _ _ E4) as (a & b & ->). eauto 10. }
    contradiction Hn. repeat split; try assumption. subst key. discriminate.
Qed.

Lemma rejected_key_validateKey (key : string) :
  rejected_key key -> exists msg, validateKey key = Some (ClientError msg).
Proof.
  intros Hr. apply rejected_key_fails in Hr.
  destruct (validateKey key) as [e|] eqn:E.
  - destruct (validateKey_client _ _ E) as [msg ->]. eauto.
  - apply validateKey_None in E. contradiction.
Qed.

Lemma accepted_key_validateKey (key : string) :
  ~ rejected_key key -> validateKey key = None.
Proof.
  intros Hn. apply validateKey_None.
  destruct (validateKey key) as [e|] eqn:E.
  - contradiction Hn. apply rejected_key_fails. intros Hp.
    apply validateKey_None in Hp. congruence.
  - now apply validateKey_None.
Qed.

(** The test suite's invalid keys are all rejected, and "state" is not. *)
Example invalidKeys_rejected :
  forallb (fun key => match validateKey key with
                      | Some e => IsClientError e
                      | None => false
                      end) invalidKeys = true
  /\ validateKey "state" = None.
Proof. split; reflexivity. Qed.

(** ** Errors through a wrapping *)

Lemma errors_Is_refl (e : error) : errors_Is e e = true.
Proof. destruct e; cbn; now rewrite bool_decide_eq_true_2. Qed.

Lemma errors_Is_wrap (prefix : string) (e : error) :
  errors_Is (WrapError prefix e) e = true.
Proof.
  cbn. destruct (bool_decide (WrapError prefix e = e)); [reflexivity|].
  apply errors_Is_refl.
Qed.

(** ** Version file names *)

Lemma toFilenames_In (files : list string) (f : filename) :
  In f (toFilenames files) <->
  In (name f) files /\ parseVersion (name f) = Some (number f).
Proof.
  induction files as [|file rest IH]; cbn [toFilenames In]; [tauto|].
  destruct (parseVersion file) as [v|] eqn:E; cbn [In]; rewrite IH; split.
  - intros [<-|[Hin Hp]]; cbn; auto.
  - intros [[->|Hin] Hp]; [left|right; auto].
    destruct f as [n v']; cbn in *. congruence.
  - intros [Hin Hp]; auto.
  - intros [[->|Hin] Hp]; [congruence|auto].
Qed.

Lemma toFilenames_nil (files : list string) :
  toFilenames files = [] <-> forall file, In file files -> parseVersion file = None.
Proof.
  induction files as [|file rest IH]; cbn [toFilenames In]; [tauto|].
  destruct (parseVersion file) as [v|] eqn:E; split.
  - discriminate.
  - intros H. specialize (H file (or_introl eq_refl)). congruence.
  - intros H g [<-|Hin]; [assumption|]. now apply IH.
  - intros H. apply IH. auto.
Qed.

Lemma youngestFilename_None (names : list filename) :
  youngestFilename names = None <-> names = [].
Proof.
  destruct names as [|f rest]; cbn; [tauto|].
  destruct (youngestFilename rest) as [g|]; [destruct (number f <? number g)|];
    split; discriminate.
Qed.

Lemma youngestFilename_Some (names : list filename) (f : filename) :
  youngestFilename names = Some f ->
  In f names /\ forall g, In g names -> number g <= number f.
Proof.
  revert f. induction names as [|x rest IH]; intros f; cbn [youngestFilename]; [discriminate|].
  destruct (youngestFilename rest) as [g|] eqn:E.
  - destruct (IH g eq_refl) as [Hin Hmax].
    destruct (Z.ltb_spec (number x) (number g)); intros [= <-].
    + split; [now right|]. intros y [<-|Hy]; [lia|auto].
    + split; [now left|]. intros y [<-|Hy]; [lia|]. specialize (Hmax y Hy). lia.
  - apply youngestFilename_None in E. subst rest. intros [= <-].
    split; [now left|]. intros y [<-|[]]. lia.
Qed.

(** ** Runs of programs *)

Section Runs.

Context {D R W S : Type}.
Variable h : handler D R W S.
Variable dirString : D -> string.

Lemma run_bind {A B : Type} (m : io D R W A) (f : A -> io D R W B) (st : S) :
  run h (bind m f) st = let (a, st') := run h m st in run h (f a) st'.
Proof.
  revert st. induction m as [a|X c k IH]; intros st; cbn; [reflexivity|].
  destruct (h X c st) as [x st']. apply IH.
Qed.

Lemma trace_bind {A B : Type} (m : io D R W A) (f : A -> io D R W B) (st : S) :
  trace h (bind m f) st =
  trace h m st ++ (let (a, st') := run h m st in trace h (f a) st').
Proof.
  revert st. induction m as [a|X c k IH]; intros st; cbn; [reflexivity|].
  destruct (h X c st) as [x st']. f_equal. apply IH.
Qed.

Lemma applyOptions_app (s : DB D) (before after : list (Option D R W)) (st : S) :
  run h (applyOptions s (before ++ after)) st =
  match run h (applyOptions s before) st with
  | (Ok s1, st1) => run h (applyOptions s1 after) st1
  | (Err e, st1) => (Err e, st1)
  end.
Proof.
  revert s st. induction before as [|[apply|] rest IH]; intros s st; cbn [app applyOptions].
  - reflexivity.
  - rewrite !run_bind. destruct (run h (apply s) st) as [[s1 [e|]] st1]; cbn; auto.
  - apply IH.
Qed.

Lemma applyOptions_trace_app (s : DB D) (before after : list (Option D R W)) (st : S) :
  trace h (applyOptions s (before ++ after)) st =
  trace h (applyOptions s before) st ++
  match run h (applyOptions s before) st with
  | (Ok s1, st1) => trace h (applyOptions s1 after) st1
  | (Err e, st1) => []
  end.
Proof.
  revert s st. induction before as [|[apply|] rest IH]; intros s st; cbn [app applyOptions].
  - reflexivity.
  - rewrite !trace_bind, !run_bind, <- app_assoc. f_equal.
    destruct (run h (apply s) st) as [[s1 [e|]] st1]; cbn; auto.
  - apply IH.
Qed.

Lemma Open_run (d : D) (options : list (Option D R W)) (st st' : S) :
  h _ (CallExists d) st = (Ok true, st') ->
  run h (Open dirString (Some d) options) st =
  run h (applyOptions {| dir := d; version := 0 |} options) st'.
Proof. intros Hex. cbn. rewrite Hex. reflexivity. Qed.

Lemma Open_trace (d : D) (options : list (Option D R W)) (st st' : S) :
  h _ (CallExists d) st = (Ok true, st') ->
  trace h (Open dirString (Some d) options) st =
  EvExists d :: trace h (applyOptions {| dir := d; version := 0 |} options) st'.
Proof. intros Hex. cbn. rewrite Hex. reflexivity. Qed.

End Runs.

(** ** Validation, Open and the not-found path, against any Dir *)

Section Handle.

Context {D R W S : Type}.
Variable h : handler D R W S.
Variable dirString : D -> string.

(** C3. Key validation: for a key that is empty, starts or ends with white
    space, is "." or "..", or holds a slash or a backslash, both [Writer]
    and [Reader] return a ClientError (the caller-input predicate holds of
    it) and no stream, straight away; every other string is accepted by
    the key validator. *)
Theorem key_validation (key : string) (s : DB D) :
  (rejected_key key ->
   exists msg,
     Writer (R := R) (W := W) s key = Ret (Err (ClientError msg), s)
     /\ Reader (R := R) (W := W) s key = Ret (Err (ClientError msg))
     /\ IsClientError (ClientError msg) = true)
  /\ (~ rejected_key key -> validateKey key = None).
Proof.
  split.
  - intros Hr. destruct (rejected_key_validateKey key Hr) as [msg Hv].
    exists msg. unfold Writer, Reader. rewrite Hv. auto.
  - apply accepted_key_validateKey.
Qed.

(** C9. Validation precedes I/O: for an invalid key, [Writer] and [Reader]
    return the ClientError without a single call of a [Dir] method
    (neither Exists, Mkdir, ListFiles, FileReader, FileWriter nor Dir),
    leave the backing store as it is and leave the handle, its version
    counter included, unchanged. *)
Theorem validation_precedes_io (key : string) (s : DB D) (st : S) :
  rejected_key key ->
  exists e,
    IsClientError e = true
    /\ trace h (Writer (R := R) (W := W) s key) st = []
    /\ run h (Writer (R := R) (W := W) s key) st = ((Err e, s), st)
    /\ trace h (Reader (R := R) (W := W) s key) st = []
    /\ run h (Reader (R := R) (W := W) s key) st = (Err e, st).
Proof.
  intros Hr. destruct (rejected_key_validateKey key Hr) as [msg Hv].
  exists (ClientError msg). unfold Writer, Reader. rewrite Hv. cbn. auto.
Qed.

(** C7. [Open] with a nil directory returns no handle and the error
    [errors.New("nil dir")], whatever the options; that error is a plain
    error value, which the caller-input predicate does not accept. *)
Theorem Open_nil_dir (options : list (Option D R W)) :
  Open dirString None options = Ret (Err (ErrorString "nil dir"))
  /\ IsClientError (ErrorString "nil dir") = false
  /\ IsDataNotFound (ErrorString "nil dir") = false.
Proof. repeat split. Qed.

(** C10. When the existence check of the directory reports false, [Open]
    returns no handle and an error that the caller-input predicate
    accepts, and that is not a not-found condition; no option is
    applied. *)
Theorem Open_missing_dir (d : D) (options : list (Option D R W)) (st st' : S) :
  h _ (CallExists d) st = (Ok false, st') ->
  exists e,
    run h (Open dirString (Some d) options) st = (Err e, st')
    /\ IsClientError e = true
    /\ IsDataNotFound e = false
    /\ trace h (Open dirString (Some d) options) st = [EvExists d].
Proof.
  intros Hex. eexists. cbn. rewrite Hex. cbn. repeat split.
Qed.

(** C8. Option application, for a directory that exists: [Open] without
    options succeeds with a handle on the directory; the options are
    applied from left to right, each to the handle the earlier ones left;
    a nil option changes nothing; and when an option returns an error [E],
    [Open] returns no handle and an error [e] with [errors.Is(e, E)],
    without applying the later options. *)
Theorem Open_options (d : D) (st st' : S) :
  h _ (CallExists d) st = (Ok true, st') ->
  let s0 := {| dir := d; version := 0 |} in
  run h (Open dirString (Some d) []) st = (Ok s0, st')
  /\ (forall before after : list (Option D R W),
        run h (Open dirString (Some d) (before ++ after)) st =
        match run h (applyOptions s0 before) st' with
        | (Ok s1, st1) => run h (applyOptions s1 after) st1
        | (Err e, st1) => (Err e, st1)
        end)
  /\ (forall s apply st1,
        run h (applyOptions s [Some apply]) st1 =
        match run h (apply s) st1 with
        | ((s2, None), st2) => (Ok s2, st2)
        | ((_, Some E), st2) => (Err (WrapError "applying option failed: " E), st2)
        end)
  /\ (forall before after : list (Option D R W),
        run h (Open dirString (Some d) (before ++ None :: after)) st =
        run h (Open dirString (Some d) (before ++ after)) st
        /\ trace h (Open dirString (Some d) (before ++ None :: after)) st =
           trace h (Open dirString (Some d) (before ++ after)) st)
  /\ (forall (before : list (Option D R W)) apply after s1 st1 s2 E st2,
        run h (applyOptions s0 before) st' = (Ok s1, st1) ->
        run h (apply s1) st1 = ((s2, Some E), st2) ->
        exists e,
          run h (Open dirString (Some d) (before ++ Some apply :: after)) st
          = (Err e, st2)
          /\ errors_Is e E = true
          /\ trace h (Open dirString (Some d) (before ++ Some apply :: after)) st
             = EvExists d :: trace h (applyOptions s0 before) st'
                 ++ trace h (apply s1) st1).
Proof.
  intros Hex s0. subst s0.
  pose proof (fun o => Open_run h dirString d o st st' Hex) as Hrun.
  pose proof (fun o => Open_trace h dirString d o st st' Hex) as Htrace.
  split; [|split; [|split; [|split]]].
  - rewrite Hrun. reflexivity.
  - intros before after. rewrite Hrun. apply applyOptions_app.
  - intros s apply st1. cbn [applyOptions]. rewrite run_bind.
    destruct (run h (apply s) st1) as [[s2 [E|]] st2]; reflexivity.
  - intros before after. rewrite !Hrun, !Htrace.
    rewrite !applyOptions_app, !applyOptions_trace_app. cbn [applyOptions]. auto.
  - intros before apply after s1 st1 s2 E st2 Hb Ha.
    exists (WrapError "applying option failed: " E).
    rewrite Hrun, Htrace, applyOptions_app, applyOptions_trace_app, Hb.
    cbn [applyOptions]. rewrite run_bind, trace_bind, Ha. cbn.
    rewrite app_nil_r. repeat split. apply errors_Is_wrap.
Qed.

(** C4. Not found: for a valid key whose directory does not exist, or
    exists but lists no file name that parses as a version, [Reader]
    returns the DataNotFound error and no stream (no file is opened);
    the error is a not-found condition and not a ClientError. *)
Theorem Reader_not_found (s : DB D) (key : string) (st st1 : S) (stateDir : D) :
  validateKey key = None ->
  h _ (CallDir (dir s) key) st = (stateDir, st1) ->
  (exists st2, h _ (CallExists stateDir) st1 = (Ok false, st2))
  \/ (exists st2 files st3,
        h _ (CallExists stateDir) st1 = (Ok true, st2)
        /\ h _ (CallListFiles stateDir) st2 = (Ok files, st3)
        /\ forall file, In file files -> parseVersion file = None) ->
  exists e,
    fst (run h (Reader s key) st) = Err e
    /\ e = DataNotFound
    /\ IsDataNotFound e = true
    /\ IsClientError e = false
    /\ forall file, ~ In (EvFileReader stateDir file) (trace h (Reader s key) st).
Proof.
  intros Hv Hd Hcases. exists DataNotFound. unfold Reader. rewrite Hv. cbn.
  rewrite Hd. destruct Hcases as [[st2 Hex]|(st2 & files & st3 & Hex & Hl & Hnone)];
    rewrite Hex; cbn.
  - repeat split. intros file [|[|[]]]; discriminate.
  - rewrite Hl. apply toFilenames_nil in Hnone. rewrite Hnone. cbn.
    repeat split. intros file [|[|[|[]]]]; discriminate.
Qed.

(** Selection in [Reader]: when the directory of a valid key exists and
    lists at least one name that parses, [Reader] makes one [FileReader]
    call, for a listed name whose version is the greatest of all parsed
    ones, and returns what that call returns. *)
Lemma Reader_opens_youngest (s : DB D) (key : string) (st st1 st2 st3 : S)
    (stateDir : D) (files : list string) :
  validateKey key = None ->
  h _ (CallDir (dir s) key) st = (stateDir, st1) ->
  h _ (CallExists stateDir) st1 = (Ok true, st2) ->
  h _ (CallListFiles stateDir) st2 = (Ok files, st3) ->
  (exists file, In file files /\ parseVersion file <> None) ->
  exists file v,
    In file files
    /\ parseVersion file = Some v
    /\ (forall g u, In g files -> parseVersion g = Some u -> u <= v)
    /\ run h (Reader s key) st = h _ (CallFileReader stateDir file) st3
    /\ trace h (Reader s key) st =
       [EvDir (dir s) key; EvExists stateDir; EvListFiles stateDir;
        EvFileReader stateDir file].
Proof.
  intros Hv Hd Hex Hl (file0 & Hin0 & Hp0).
  destruct (youngestFilename (toFilenames files)) as [f|] eqn:Ey.
  - destruct (youngestFilename_Some _ _ Ey) as [Hin Hmax].
    apply toFilenames_In in Hin. destruct Hin as [Hin Hp].
    exists (name f), (number f). repeat split; try assumption.
    + intros g u Hg Hu.
      apply (Hmax {| name := g; number := u |}), toFilenames_In. auto.
    + unfold Reader. rewrite Hv. cbn. rewrite Hd, Hex. cbn. rewrite Hl, Ey. cbn.
      now destruct (h _ (CallFileReader stateDir (name f)) st3).
    + unfold Reader. rewrite Hv. cbn. rewrite Hd, Hex. cbn. rewrite Hl, Ey. cbn.
      now destruct (h _ (CallFileReader stateDir (name f)) st3).
  - apply youngestFilename_None in Ey.
    pose proof (proj1 (toFilenames_nil files) Ey file0 Hin0). contradiction.
Qed.

End Handle.

(** ** The version counter *)

Lemma parseVersion_Sprintf_d (v : Z) : 0 <= v -> parseVersion (Sprintf_d v) = Some v.
Proof.
  intros Hv. unfold parseVersion, Sprintf_d.
  destruct v as [|p|p]; [reflexivity| |lia].
  cbn [Z.to_int NilZero.string_of_int].
  rewrite NilZero.usu by apply DecimalPos.Unsigned.to_uint_nonnil.
  unfold N.of_uint. now rewrite DecimalPos.Unsigned.of_to.
Qed.

Lemma wrapInt_small (z : Z) : 0 <= z <= maxInt -> wrapInt z = z.
Proof.
  unfold wrapInt, maxInt, intSize.
  change (2 ^ (64 - 1)) with 9223372036854775808.
  change (2 ^ 64) with 18446744073709551616.
  intros Hz. rewrite Z.mod_small; lia.
Qed.

Lemma wrapInt_overflow : wrapInt (maxInt + 1) = - 2 ^ (intSize - 1).
Proof. reflexivity. Qed.

Section Allocation.

Context {D R W S : Type}.
Variable h : handler D R W S.

(** A [Writer] call either hands no name to [FileWriter] and leaves the
    handle as it was, or hands over exactly the decimal text of the
    counter and leaves the counter one higher. *)
Lemma Writer_allocates (s : DB D) (key : string) (st : S) :
  let names := omap created (trace h (Writer (R := R) s key) st) in
  let s' := snd (fst (run h (Writer (R := R) s key) st)) in
  (names = [] /\ s' = s)
  \/ (names = [Sprintf_d (version s)]
      /\ s' = {| dir := dir s; version := wrapInt (version s + 1) |}).
Proof.
  unfold Writer. destruct (validateKey key) as [e|]; cbn; [now left|].
  destruct (h _ (CallDir (dir s) key) st) as [stateDir st1]. cbn.
  destruct (h _ (CallExists stateDir) st1) as [[b|e] st2]; cbn; [|now left].
  destruct b; cbn.
  - destruct (h _ (CallFileWriter stateDir (Sprintf_d (version s))) st2) as [w st3].
    cbn. now right.
  - destruct (h _ (CallMkdir stateDir) st2) as [[e|] st3]; cbn; [now left|].
    destruct (h _ (CallFileWriter stateDir (Sprintf_d (version s))) st3) as [w st4].
    cbn. now right.
Qed.

Lemma writerCalls_names (s : DB D) (calls : list (string * S)) :
  (calls <> [] ->
   0 <= version s /\ version s + Z.of_nat (length calls) <= maxInt + 1) ->
  let names := fst (writerCalls h s calls) in
  names = map (fun i => Sprintf_d (version s + Z.of_nat i)) (seq 0 (length names))
  /\ (length names <= length calls)%nat.
Proof.
  revert s. induction calls as [|[key st] rest IH]; intros s Hb; [cbn; auto|].
  destruct Hb as [H0 Hlen]; [discriminate|]. cbn [length] in Hlen.
  cbn [writerCalls].
  destruct (Writer_allocates s key st) as [[Hn Hs]|[Hn Hs]]; rewrite Hn, Hs.
  - specialize (IH s). destruct (writerCalls h s rest) as [more s2]. cbn in *.
    destruct IH as [IH1 IH2]; [intros _; lia|]. split; [exact IH1|lia].
  - set (s1 := {| dir := dir s; version := wrapInt (version s + 1) |}).
    specialize (IH s1). destruct (writerCalls h s1 rest) as [more s2] eqn:Er.
    cbn [fst app length seq map] in *.
    destruct rest as [|c rest'].
    + cbn in Er. injection Er as <- <-. cbn. rewrite Z.add_0_r. split; [reflexivity|lia].
    + assert (Hw : version s1 = version s + 1).
      { unfold s1. cbn [version]. apply wrapInt_small. cbn [length] in Hlen. lia. }
      destruct IH as [IH1 IH2]; [intros _; rewrite Hw; cbn [length] in *; lia|].
      split; [|lia]. rewrite Z.add_0_r. f_equal.
      rewrite IH1 at 1. rewrite <- seq_shift, map_map.
      apply map_ext. intros i. f_equal. lia.
Qed.

(** C5. Version allocation: in every series of [Writer] calls on one
    handle, whatever the keys, whatever state each call finds the store
    in and however the [Dir] answers (failing creations included), the
    file names handed to [FileWriter] are the decimal texts of 0, 1, 2,
    ... in this order, one per allocation, with no gap and no repetition:
    their versions are consecutive and strictly increasing.  The series
    is bounded by the range of the counter, an [int]: two to the power 63
    calls. *)
Theorem version_allocation (d : D) (calls : list (string * S)) :
  Z.of_nat (length calls) <= 2 ^ 63 ->
  let names := fst (writerCalls h {| dir := d; version := 0 |} calls) in
  names = map (fun i => Sprintf_d (Z.of_nat i)) (seq 0 (length names))
  /\ map parseVersion names = map (fun i => Some (Z.of_nat i)) (seq 0 (length names))
  /\ (forall i j u v,
        (i < j)%nat ->
        nth_error names i = Some u -> nth_error names j = Some v ->
        exists n m, parseVersion u = Some n /\ parseVersion v = Some m /\ n < m).
Proof.
  intros Hlen names.
  destruct (writerCalls_names {| dir := d; version := 0 |} calls) as [Hn _].
  { intros _. cbn [version]. unfold maxInt, intSize.
    change (2 ^ (64 - 1)) with (2 ^ 63). lia. }
  fold names in Hn. cbn [version] in Hn.
  assert (Hnames : names = map (fun i => Sprintf_d (Z.of_nat i)) (seq 0 (length names))).
  { rewrite Hn at 1. apply map_ext. intros i. f_equal. }
  split; [exact Hnames|]. split.
  - rewrite Hnames at 1. rewrite map_map. apply map_ext. intros i.
    apply parseVersion_Sprintf_d. lia.
  - intros i j u v Hij Hu Hv. rewrite Hnames in Hu, Hv.
    rewrite nth_error_map in Hu, Hv.
    destruct (nth_error (seq 0 (length names)) i) as [a|] eqn:Ea; [|discriminate].
    destruct (nth_error (seq 0 (length names)) j) as [b|] eqn:Eb; [|discriminate].
    cbn in Hu, Hv. injection Hu as <-. injection Hv as <-.
    pose proof (nth_error_Some (seq 0 (length names)) i) as Hi.
    pose proof (nth_error_Some (seq 0 (length names)) j) as Hj.
    rewrite length_seq in Hi, Hj.
    assert (Hi' : (i < length names)%nat) by (apply Hi; congruence).
    assert (Hj' : (j < length names)%nat) by (apply Hj; congruence).
    pose proof (nth_error_nth _ _ 0%nat Ea) as Na. rewrite seq_nth in Na by exact Hi'.
    pose proof (nth_error_nth _ _ 0%nat Eb) as Nb. rewrite seq_nth in Nb by exact Hj'.
    exists (Z.of_nat a), (Z.of_nat b).
    rewrite !parseVersion_Sprintf_d by lia. repeat split. lia.
Qed.

End Allocation.

(** ** Writing and reading in the in-memory directory *)

Section InMemory.

Import MemDir.

#[local] Arguments fileReader : simpl never.
#[local] Arguments fileWriter : simpl never.
#[local] Arguments mkdir : simpl never.
#[local] Arguments exists_ : simpl never.
#[local] Arguments listFiles : simpl never.
#[local] Arguments Write : simpl never.

Lemma listing_In (fs : files) (file : string) :
  In file (listing fs) <-> is_Some (fs !! file).
Proof.
  unfold listing. rewrite in_map_iff. split.
  - intros [[k v] [Hk Hin]]. cbn in Hk. subst k.
    apply list_elem_of_In, elem_of_map_to_list in Hin. eauto.
  - intros [v Hv]. exists (file, v). split; [reflexivity|].
    now apply list_elem_of_In, elem_of_map_to_list.
Qed.

Lemma ahead_free (s : DB path) (d : path) (st : store) :
  ahead s d st -> filesOf d st !! Sprintf_d (version s) = None.
Proof.
  intros [H0 Hlt]. unfold filesOf.
  destruct (st !! d) as [fs|] eqn:Ed; cbn; [|apply lookup_empty].
  destruct (fs !! Sprintf_d (version s)) as [c|] eqn:Ef; [|reflexivity].
  assert (Hin : In (Sprintf_d (version s)) (listing fs)) by (apply listing_In; eauto).
  specialize (Hlt fs _ _ eq_refl Hin (parseVersion_Sprintf_d _ H0)). lia.
Qed.

(** [Writer] on a free file name: the directory is made if need be, the
    file is created empty and the counter moves on. *)
Lemma Writer_run (s : DB path) (key : string) (st : store) :
  validateKey key = None ->
  filesOf (stateDir s key) st !! Sprintf_d (version s) = None ->
  run handle (Writer (R := reader) s key) st =
  ((Ok (stateDir s key, Sprintf_d (version s)),
    {| dir := dir s; version := wrapInt (version s + 1) |}),
   <[stateDir s key := <[Sprintf_d (version s) := []]> (filesOf (stateDir s key) st)]> st).
Proof.
  intros Hv Hfree. unfold Writer, filesOf, stateDir in *. rewrite Hv. cbn.
  unfold exists_. destruct (st !! (dir s ++ [key])) as [fs|] eqn:Ed; cbn in *.
  - unfold fileWriter. rewrite Ed, Hfree. reflexivity.
  - unfold fileWriter, mkdir. rewrite Ed, lookup_insert_eq, lookup_empty.
    now rewrite insert_insert_eq.
Qed.

Lemma writeData_run (s : DB path) (key : string) (data : bytes) (st : store) :
  validateKey key = None ->
  ahead s (stateDir s key) st ->
  writeData s key data st =
  (None,
   {| dir := dir s; version := wrapInt (version s + 1) |},
   <[stateDir s key := <[Sprintf_d (version s) := data]> (filesOf (stateDir s key) st)]> st).
Proof.
  intros Hv Ha. unfold writeData.
  rewrite (Writer_run s key st Hv (ahead_free _ _ _ Ha)).
  unfold Write, Close. cbn [fst snd].
  rewrite lookup_insert_eq, lookup_insert_eq. cbn [app].
  now rewrite !insert_insert_eq.
Qed.

(** [Reader] on an existing directory: the youngest listed version, or
    the not-found error. *)
Lemma readData_run (s : DB path) (key : string) (st : store) (fs : files) :
  validateKey key = None ->
  st !! stateDir s key = Some fs ->
  match youngestFilename (toFilenames (listing fs)) with
  | Some young =>
      exists content, fs !! name young = Some content
                      /\ readData s key st = Ok content
  | None => readData s key st = Err DataNotFound
  end.
Proof.
  intros Hv Hd. unfold readData, Reader, stateDir in *. rewrite Hv. cbn.
  unfold exists_. rewrite Hd. cbn. unfold listFiles. rewrite Hd. cbn.
  destruct (youngestFilename (toFilenames (listing fs))) as [young|] eqn:Ey; cbn; [|reflexivity].
  destruct (youngestFilename_Some _ _ Ey) as [Hin _].
  apply toFilenames_In in Hin. destruct Hin as [Hin _].
  apply listing_In in Hin. destruct Hin as [content Hc].
  exists content. split; [exact Hc|]. unfold fileReader. now rewrite Hd, Hc.
Qed.


(** After a write, the counter is ahead again, in every directory. *)
Lemma writeData_ahead (s : DB path) (key : string) (data : bytes) (st : store)
    (d : path) :
  validateKey key = None ->
  ahead s (stateDir s key) st ->
  ahead s d st ->
  version s < maxInt ->
  ahead (snd (fst (writeData s key data st))) d (snd (writeData s key data st)).
Proof.
  intros Hv Ha Hd Hmax. rewrite (writeData_run s key data st Hv Ha). cbn [fst snd].
  destruct Hd as [H0 Hlt].
  assert (Hw : wrapInt (version s + 1) = version s + 1) by (apply wrapInt_small; lia).
  split; cbn [version]; rewrite Hw; [lia|].
  intros fs file v Hfs Hin Hp.
  destruct (decide (stateDir s key = d)) as [<-|Hne].
  - rewrite lookup_insert_eq in Hfs. injection Hfs as <-.
    apply listing_In in Hin.
    destruct (decide (Sprintf_d (version s) = file)) as [<-|Hf].
    + rewrite parseVersion_Sprintf_d in Hp by exact H0. injection Hp as <-. lia.
    + rewrite lookup_insert_ne in Hin by exact Hf. unfold filesOf in Hin.
      destruct (st !! stateDir s key) as [fs0|] eqn:E0; cbn in Hin.
      * apply listing_In in Hin. specialize (Hlt fs0 file v eq_refl Hin Hp). lia.
      * rewrite lookup_empty in Hin. now destruct Hin.
  - rewrite lookup_insert_ne in Hfs by exact Hne.
    specialize (Hlt fs file v Hfs Hin Hp). lia.
Qed.

Lemma writeData_rejected (s : DB path) (key : string) (data : bytes) (st : store)
    (e : error) :
  validateKey key = Some e -> writeData s key data st = (Some e, s, st).
Proof. intros Hv. unfold writeData, Writer. now rewrite Hv. Qed.

Lemma writeData_keeps_ahead (s : DB path) (key : string) (data : bytes) (st : store) :
  (forall d, ahead s d st) ->
  version s < maxInt ->
  (forall d, ahead (snd (fst (writeData s key data st))) d (snd (writeData s key data st)))
  /\ version (snd (fst (writeData s key data st))) <= version s + 1.
Proof.
  intros Ha Hmax. destruct (validateKey key) as [e|] eqn:Hv.
  - rewrite (writeData_rejected s key data st e Hv). cbn. split; [exact Ha|lia].
  - split; [intros d; now apply writeData_ahead|].
    rewrite (writeData_run s key data st Hv (Ha _)). cbn.
    rewrite wrapInt_small; [lia|]. destruct (Ha []). lia.
Qed.

(** Whatever one handle has written, its counter stays ahead of every
    directory, up to the range of the counter. *)
Lemma writeAll_ahead (s : DB path) (writes : list (string * bytes)) (st : store) :
  (forall d, ahead s d st) ->
  version s + Z.of_nat (length writes) <= maxInt ->
  forall d, ahead (fst (writeAll s writes st)) d (snd (writeAll s writes st)).
Proof.
  revert s st. induction writes as [|[key data] rest IH]; intros s st Ha Hlen; [exact Ha|].
  cbn [writeAll length] in *.
  destruct (writeData_keeps_ahead s key data st Ha) as [Ha' Hv']; [lia|].
  destruct (writeData s key data st) as [[err s'] st']. cbn [fst snd] in *.
  apply IH; [exact Ha'|lia].
Qed.

(** A handle just opened is ahead of a directory without version files. *)
Lemma opened_ahead (root d : path) (st : store) :
  (forall fs file, st !! d = Some fs -> In file (listing fs) -> parseVersion file = None) ->
  ahead (opened root) d st.
Proof.
  intros Hnone. split; [cbn; lia|]. intros fs file v Hfs Hin Hp.
  rewrite (Hnone fs file Hfs Hin) in Hp. discriminate.
Qed.

Lemma Open_run_mem (root : path) (st : store) :
  is_Some (st !! root) ->
  run handle (Open (R := reader) (W := writer) dirString (Some root) []) st
  = (Ok (opened root), st).
Proof. intros [fs Hr]. cbn. unfold exists_. now rewrite Hr. Qed.

(** A write followed by a read, on a handle that is ahead of the key's
    directory. *)
Lemma writeData_readData (s : DB path) (key : string) (data : bytes) (st : store) :
  validateKey key = None ->
  ahead s (stateDir s key) st ->
  exists s' st',
    writeData s key data st = (None, s', st')
    /\ readData s' key st' = Ok data.
Proof.
  intros Hv Ha. rewrite (writeData_run s key data st Hv Ha).
  eexists _, _. split; [reflexivity|].
  set (file := Sprintf_d (version s)).
  set (fs := filesOf (stateDir s key) st).
  set (s' := {| dir := dir s; version := wrapInt (version s + 1) |}).
  assert (Hd : <[stateDir s key := <[file := data]> fs]> st !! stateDir s' key
               = Some (<[file := data]> fs)) by apply lookup_insert_eq.
  pose proof (readData_run s' key _ _ Hv Hd) as Hr.
  destruct (youngestFilename (toFilenames (listing (<[file := data]> fs))))
    as [young|] eqn:Ey.
  - destruct Hr as (content & Hc & ->). f_equal.
    destruct (youngestFilename_Some _ _ Ey) as [Hin Hmax].
    apply toFilenames_In in Hin. destruct Hin as [Hin Hp].
    destruct Ha as [H0 Hlt].
    assert (Hnew : In {| name := file; number := version s |}
                      (toFilenames (listing (<[file := data]> fs)))).
    { apply toFilenames_In. cbn. split.
      - apply listing_In. rewrite lookup_insert_eq. eauto.
      - now apply parseVersion_Sprintf_d. }
    specialize (Hmax _ Hnew). cbn in Hmax.
    destruct (decide (file = name young)) as [Hf|Hf].
    + rewrite <- Hf, lookup_insert_eq in Hc. congruence.
    + exfalso. rewrite lookup_insert_ne in Hc by exact Hf.
      unfold fs, filesOf in Hc.
      destruct (st !! stateDir s key) as [fs0|] eqn:E0; cbn in Hc.
      * assert (Hin0 : In (name young) (listing fs0)) by (apply listing_In; eauto).
        specialize (Hlt fs0 _ _ eq_refl Hin0 Hp). lia.
      * now rewrite lookup_empty in Hc.
  - exfalso. apply youngestFilename_None in Ey.
    assert (Hin : In file (listing (<[file := data]> fs))).
    { apply listing_In. rewrite lookup_insert_eq. eauto. }
    pose proof (proj1 (toFilenames_nil _) Ey file Hin) as Hn.
    pose proof (parseVersion_Sprintf_d (version s) (proj1 Ha)) as Hp.
    fold file in Hp. congruence.
Qed.

(** C1, as the code has it.  Write-then-read round trip: for every valid
    key and every byte sequence, on a handle whose counter is not negative
    and is greater than every version stored under the key (so it is for
    one handle opened on a directory without version files, all through
    its life), opening a writer for the key, writing the bytes and closing
    succeeds, and a reader opened for the same key then delivers exactly
    the bytes written. *)
Theorem write_then_read (s : DB path) (key : string) (data : bytes) (st : store) :
  validateKey key = None ->
  ahead s (stateDir s key) st ->
  exists s' st',
    writeData s key data st = (None, s', st')
    /\ readData s' key st' = Ok data.
Proof. apply writeData_readData. Qed.

(** The round trip in the life of one handle: opened on a store without
    version files, after any series of writes within the range of the
    counter. *)
Lemma round_trip_after_writes (root : path) (writes : list (string * bytes))
    (key : string) (data : bytes) (st : store) :
  (forall d fs file, st !! d = Some fs -> In file (listing fs) -> parseVersion file = None) ->
  Z.of_nat (length writes) <= maxInt ->
  validateKey key = None ->
  exists s' st',
    writeData (fst (writeAll (opened root) writes st)) key data
              (snd (writeAll (opened root) writes st)) = (None, s', st')
    /\ readData s' key st' = Ok data.
Proof.
  intros Hnone Hlen Hv. apply writeData_readData; [exact Hv|].
  apply writeAll_ahead; [|cbn; lia].
  intros d. apply opened_ahead. intros fs file. apply Hnone.
Qed.

Lemma Sprintf_d_inj (u v : Z) : 0 <= u -> 0 <= v -> Sprintf_d u = Sprintf_d v -> u = v.
Proof.
  intros Hu Hv E. apply (f_equal parseVersion) in E.
  rewrite !parseVersion_Sprintf_d in E by assumption. congruence.
Qed.

(** Two writes to one key leave two version files, and the read serves
    the second. *)
Lemma two_writes_then_read (s : DB path) (key : string) (first second : bytes)
    (st : store) :
  validateKey key = None ->
  ahead s (stateDir s key) st ->
  version s < maxInt ->
  exists s1 st1 s2 st2 fs,
    writeData s key first st = (None, s1, st1)
    /\ writeData s1 key second st1 = (None, s2, st2)
    /\ st2 !! stateDir s key = Some fs
    /\ fs !! Sprintf_d (version s) = Some first
    /\ fs !! Sprintf_d (version s + 1) = Some second
    /\ Sprintf_d (version s) <> Sprintf_d (version s + 1)
    /\ readData s2 key st2 = Ok second.
Proof.
  intros Hv Ha Hmax.
  pose proof (writeData_ahead s key first st (stateDir s key) Hv Ha Ha Hmax) as Ha1.
  pose proof (writeData_run s key first st Hv Ha) as Hw1.
  rewrite Hw1 in Ha1. cbn [fst snd] in Ha1.
  set (s1 := {| dir := dir s; version := wrapInt (version s + 1) |}) in *.
  set (st1 := <[stateDir s key := <[Sprintf_d (version s) := first]>
                                    (filesOf (stateDir s key) st)]> st) in *.
  assert (Hs1 : version s1 = version s + 1).
  { unfold s1. cbn [version]. apply wrapInt_small. destruct Ha. lia. }
  change (stateDir s key) with (stateDir s1 key) in Ha1.
  destruct (writeData_readData s1 key second st1 Hv Ha1) as (s2 & st2 & Hw2 & Hr).
  exists s1, st1, s2, st2.
  pose proof (writeData_run s1 key second st1 Hv Ha1) as Hw2'.
  rewrite Hw2 in Hw2'. injection Hw2' as -> ->.
  assert (Hne : Sprintf_d (version s) <> Sprintf_d (version s + 1)).
  { intros E. apply Sprintf_d_inj in E; destruct Ha; lia. }
  eexists. split; [exact Hw1|]. split; [exact Hw2|].
  change (stateDir s key) with (stateDir s1 key).
  split; [apply lookup_insert_eq|]. unfold s1 in Hs1. cbn [version] in Hs1.
  assert (Hf : filesOf (stateDir s1 key) st1
               = <[Sprintf_d (version s) := first]> (filesOf (stateDir s key) st)).
  { unfold filesOf at 1, st1. change (stateDir s1 key) with (stateDir s key).
    now rewrite lookup_insert_eq. }
  split; [|split; [|split; [exact Hne|exact Hr]]].
  - rewrite Hs1, Hf, lookup_insert_ne by congruence. apply lookup_insert_eq.
  - rewrite Hs1. apply lookup_insert_eq.
Qed.

(** C2, as the code has it.  Version selection.  Against any [Dir]: when
    the directory of a valid key exists and lists at least one name that
    parses as a version, [Reader] leaves the names that do not parse
    aside and opens, with its one [FileReader] call, a listed name whose
    version is the greatest of the parsed ones, returning what that call
    returns.  In the in-memory directory: two successive writes to one
    key, through a handle whose counter is greater than every version
    stored under the key (and below the greatest [int]), leave two
    distinct version files, and a read then delivers the bytes of the
    second write. *)
Theorem Reader_version_selection :
  (forall (D R W S : Type) (h : handler D R W S) (s : DB D) (key : string)
          (st st1 st2 st3 : S) (sd : D) (listed : list string),
      validateKey key = None ->
      h _ (CallDir (dir s) key) st = (sd, st1) ->
      h _ (CallExists sd) st1 = (Ok true, st2) ->
      h _ (CallListFiles sd) st2 = (Ok listed, st3) ->
      (exists file, In file listed /\ parseVersion file <> None) ->
      exists file v,
        In file listed
        /\ parseVersion file = Some v
        /\ (forall g u, In g listed -> parseVersion g = Some u -> u <= v)
        /\ run h (Reader s key) st = h _ (CallFileReader sd file) st3
        /\ trace h (Reader s key) st =
           [EvDir (dir s) key; EvExists sd; EvListFiles sd; EvFileReader sd file])
  /\ (forall (s : DB path) (key : string) (first second : bytes) (st : store),
        validateKey key = None ->
        ahead s (stateDir s key) st ->
        version s < maxInt ->
        exists s1 st1 s2 st2 fs,
          writeData s key first st = (None, s1, st1)
          /\ writeData s1 key second st1 = (None, s2, st2)
          /\ st2 !! stateDir s key = Some fs
          /\ fs !! Sprintf_d (version s) = Some first
          /\ fs !! Sprintf_d (version s + 1) = Some second
          /\ Sprintf_d (version s) <> Sprintf_d (version s + 1)
          /\ readData s2 key st2 = Ok second).
Proof.
  split.
  - intros D R W S h. apply Reader_opens_youngest.
  - apply two_writes_then_read.
Qed.


End InMemory.

(** ** The claims at concrete inputs *)

Section Examples.

Import MemDir.

Lemma emptyStore_ahead (key : string) : ahead (opened db) (stateDir (opened db) key) emptyStore.
Proof.
  apply opened_ahead. intros fs file Hfs. exfalso. revert Hfs.
  unfold emptyStore, stateDir, opened, db. cbn [dir app].
  rewrite lookup_singleton_ne; [discriminate|]. intros [=].
Qed.

Lemma write_then_read_witness :
  validateKey "state" = None
  /\ exists s' st',
       writeData (opened db) "state" data emptyStore = (None, s', st')
       /\ readData s' "state" st' = Ok data.
Proof.
  split; [reflexivity|].
  apply (write_then_read (opened db) "state" data emptyStore);
    [reflexivity|apply emptyStore_ahead].
Defined.

(** The test [TestReadAfterWrite], from [Open] to the bytes read. *)
Example read_after_write :
  run handle (Open (R := reader) (W := writer) dirString (Some db) []) emptyStore
  = (Ok (opened db), emptyStore)
  /\ (let '(err, s, st) := writeData (opened db) "state" data emptyStore in
      err = None /\ readData s "state" st = Ok data).
Proof. split; vm_compute; auto. Qed.

Lemma Reader_version_selection_witness :
  (exists file v,
      In file ["1"; "notes.txt"; "0"]%string
      /\ parseVersion file = Some v
      /\ (forall g u, In g ["1"; "notes.txt"; "0"]%string -> parseVersion g = Some u -> u <= v)
      /\ run handle (Reader (W := writer) (opened db) "state") corruptYoungest
         = handle _ (CallFileReader ["db"; "state"]%string file) corruptYoungest
      /\ trace handle (Reader (R := reader) (W := writer) (opened db) "state") corruptYoungest
         = [EvDir db "state"; EvExists ["db"; "state"]%string;
            EvListFiles ["db"; "state"]%string;
            EvFileReader ["db"; "state"]%string file])
  /\ (exists s1 st1 s2 st2 fs,
        writeData (opened db) "state" data emptyStore = (None, s1, st1)
        /\ writeData s1 "state" corruptData st1 = (None, s2, st2)
        /\ st2 !! stateDir (opened db) "state" = Some fs
        /\ fs !! Sprintf_d 0 = Some data
        /\ fs !! Sprintf_d (0 + 1) = Some corruptData
        /\ Sprintf_d 0 <> Sprintf_d (0 + 1)
        /\ readData s2 "state" st2 = Ok corruptData).
Proof.
  split.
  - apply (proj1 Reader_version_selection _ _ _ _ handle (opened db) "state"
             corruptYoungest corruptYoungest corruptYoungest corruptYoungest);
      [reflexivity|reflexivity|reflexivity|reflexivity|].
    exists "1"%string. split; [cbn; auto|discriminate].
  - apply (proj2 Reader_version_selection (opened db) "state" data corruptData emptyStore);
      [reflexivity|apply emptyStore_ahead|reflexivity].
Defined.

Lemma key_validation_witness :
  (exists msg,
      Writer (R := reader) (W := writer) (opened db) "a/b" = Ret (Err (ClientError msg), opened db)
      /\ Reader (R := reader) (W := writer) (opened db) "a/b" = Ret (Err (ClientError msg))
      /\ IsClientError (ClientError msg) = true)
  /\ validateKey "state" = None.
Proof.
  split.
  - apply (proj1 (key_validation (R := reader) (W := writer) "a/b" (opened db))).
    unfold rejected_key. do 5 right. left. exists "a"%string, "b"%string. reflexivity.
  - apply (proj2 (key_validation (R := reader) (W := writer) "state" (opened db))).
    intros Hr. apply rejected_key_fails in Hr. apply Hr.
    repeat split; solve [discriminate | reflexivity].
Defined.

Lemma validation_precedes_io_witness :
  exists e,
    IsClientError e = true
    /\ trace handle (Writer (R := reader) (W := writer) (opened db) "..") emptyStore = []
    /\ run handle (Writer (R := reader) (W := writer) (opened db) "..") emptyStore
       = ((Err e, opened db), emptyStore)
    /\ trace handle (Reader (R := reader) (W := writer) (opened db) "..") emptyStore = []
    /\ run handle (Reader (R := reader) (W := writer) (opened db) "..") emptyStore
       = (Err e, emptyStore).
Proof.
  apply (validation_precedes_io handle ".." (opened db) emptyStore).
  unfold rejected_key. do 4 right. left. reflexivity.
Defined.

Lemma Open_missing_dir_witness :
  exists e,
    run handle (Open (R := reader) (W := writer) dirString (Some db) [skipVersion]) noStore
    = (Err e, noStore)
    /\ IsClientError e = true
    /\ IsDataNotFound e = false
    /\ trace handle (Open (R := reader) (W := writer) dirString (Some db) [skipVersion]) noStore
       = [EvExists db].
Proof.
  apply (Open_missing_dir handle dirString db [skipVersion] noStore noStore).
  reflexivity.
Defined.

Lemma Reader_not_found_witness :
  exists e,
    fst (run handle (Reader (W := writer) (opened db) "state") emptyStore) = Err e
    /\ e = DataNotFound
    /\ IsDataNotFound e = true
    /\ IsClientError e = false
    /\ forall file,
         ~ In (EvFileReader ["db"; "state"]%string file)
              (trace handle (Reader (R := reader) (W := writer) (opened db) "state") emptyStore).
Proof.
  apply (Reader_not_found handle (opened db) "state" emptyStore emptyStore
           ["db"; "state"]%string); [reflexivity|reflexivity|].
  left. exists emptyStore. reflexivity.
Defined.

Lemma version_allocation_witness :
  let names :=
    fst (writerCalls handle (opened db)
           [("a", emptyStore); ("a/b", emptyStore); ("b", noStore); ("a", emptyStore)]%string) in
  names = map (fun i => Sprintf_d (Z.of_nat i)) (seq 0 (length names))
  /\ map parseVersion names = map (fun i => Some (Z.of_nat i)) (seq 0 (length names))
  /\ (forall i j u v,
        (i < j)%nat ->
        nth_error names i = Some u -> nth_error names j = Some v ->
        exists n m, parseVersion u = Some n /\ parseVersion v = Some m /\ n < m).
Proof.
  apply (version_allocation handle db
           [("a", emptyStore); ("a/b", emptyStore); ("b", noStore); ("a", emptyStore)]%string).
  cbn. lia.
Defined.

(** The names of that series: the rejected key allocates nothing, and the
    second write to "a", whose file "2" is new, gets the next number
    although "0" was taken by the first. *)
Example allocation_names :
  fst (writerCalls handle (opened db)
         [("a", emptyStore); ("a/b", emptyStore); ("b", noStore); ("a", emptyStore)]%string)
  = ["0"; "1"; "2"]%string.
Proof. vm_compute. reflexivity. Qed.

(** A creation that fails uses up its number: with file "5" in place, the
    write numbered 5 fails in [FileWriter], and the next write is
    numbered 6. *)
Example failed_creation_not_reused :
  fst (fst (run handle (Writer (R := reader) {| dir := db; version := 5 |} "state")
              reopenedStore))
  = Err (ForeignError "file already exists")
  /\ fst (writerCalls handle {| dir := db; version := 5 |}
            [("state", reopenedStore); ("state", reopenedStore)]%string)
     = ["5"; "6"]%string.
Proof. split; vm_compute; reflexivity. Qed.

Lemma Open_options_witness :
  exists e,
    run handle (Open dirString (Some db) ([skipVersion; None] ++ Some failing :: [skipVersion]))
        emptyStore
    = (Err e, emptyStore)
    /\ errors_Is e (ForeignError "test-error") = true
    /\ trace handle
         (Open dirString (Some db) ([skipVersion; None] ++ Some failing :: [skipVersion]))
         emptyStore
       = EvExists db
           :: trace handle (applyOptions {| dir := db; version := 0 |} [skipVersion; None])
                emptyStore
           ++ trace handle (failing {| dir := db; version := 1 |}) emptyStore.
Proof.
  destruct (Open_options handle dirString db emptyStore emptyStore eq_refl)
    as (_ & _ & _ & _ & Hfail).
  apply (Hfail [skipVersion; None] failing [skipVersion] {| dir := db; version := 1 |}
           emptyStore {| dir := db; version := 1 |} (ForeignError "test-error") emptyStore);
    reflexivity.
Defined.

(** The tests of [Open]: no options, a nil option, a failing option. *)
Example Open_tests :
  run handle (Open (R := reader) (W := writer) dirString (Some db) []) emptyStore
  = (Ok (opened db), emptyStore)
  /\ run handle (Open (R := reader) (W := writer) dirString (Some db) [None]) emptyStore
     = (Ok (opened db), emptyStore)
  /\ (exists e,
        run handle (Open dirString (Some db) [failingOption]) emptyStore = (Err e, emptyStore)
        /\ errors_Is e (ForeignError "test-error") = true).
Proof. repeat split. eexists. split; reflexivity. Qed.



(** C1, as the claim has it, fails.  Two handles are opened on one empty
    directory.  The first writes key "other" (version 0) and key "state"
    (version 1).  The second, whose counter starts at 0 as well, then
    writes "data" to "state": the write succeeds, as file "0", and the
    read that follows serves version 1, the bytes of the first handle. *)
Lemma round_trip_counterexample :
  run handle (Open (R := reader) (W := writer) dirString (Some db) []) emptyStore
  = (Ok (opened db), emptyStore)
  /\ run handle (Open (R := reader) (W := writer) dirString (Some db) []) firstHandleStore
     = (Ok (opened db), firstHandleStore)
  /\ (exists s' st',
        writeData (opened db) "state" data firstHandleStore = (None, s', st')
        /\ readData s' "state" st' = Ok olderData)
  /\ olderData <> data
  /\ ~ round_trip_always.
Proof.
  split; [reflexivity|]. split; [reflexivity|].
  split; [eexists _, _; split; reflexivity|].
  split; [discriminate|]. intros Hclaim.
  specialize (Hclaim (opened db) "state"%string data firstHandleStore _ _ eq_refl eq_refl).
  vm_compute in Hclaim. discriminate Hclaim.
Qed.

(** C2, as the claim has it, fails in its second half.  The first handle
    has written "other" twice and then "state" (version 2).  The second
    handle writes "state" twice, as files "0" and "1"; the read serves
    version 2, which is neither of its writes. *)
Lemma second_write_counterexample :
  run handle (Open (R := reader) (W := writer) dirString (Some db) []) firstHandleStore2
  = (Ok (opened db), firstHandleStore2)
  /\ (exists s1 st1 s2 st2,
        writeData (opened db) "state" intactData firstHandleStore2 = (None, s1, st1)
        /\ writeData s1 "state" data st1 = (None, s2, st2)
        /\ listFiles ["db"; "state"]%string st2 = Ok ["1"; "2"; "0"]%string
        /\ readData s2 "state" st2 = Ok olderData)
  /\ olderData <> data
  /\ ~ second_write_always.
Proof.
  split; [reflexivity|].
  split; [eexists _, _, _, _; repeat split; reflexivity|].
  split; [discriminate|]. intros Hclaim.
  specialize (Hclaim (opened db) "state"%string intactData data firstHandleStore2
                _ _ _ _ eq_refl eq_refl eq_refl).
  vm_compute in Hclaim. discriminate Hclaim.
Qed.

End Examples.

(** * Further properties of Open, Writer and Reader *)

(** ** Errors of the Dir and the order of its calls *)

Section Calls.

Context {D R W S : Type}.
Variable h : handler D R W S.
Variable dirString : D -> string.

(** X1. An error of the existence check in [Open] is returned as it is:
    no handle, no wrapping, no option applied, no other call made. *)
Theorem Open_exists_error (d : D) (options : list (Option D R W)) (st st' : S)
    (e : error) :
  h _ (CallExists d) st = (Err e, st') ->
  run h (Open dirString (Some d) options) st = (Err e, st')
  /\ trace h (Open dirString (Some d) options) st = [EvExists d].
Proof. intros Hex. cbn. rewrite Hex. cbn. auto. Qed.

(** X2. The whole causal chain survives the wrapping in [Open]: when an
    option fails with [E], whatever [errors.Is] finds in [E] it finds in
    the error [Open] returns. *)
Theorem Open_option_error_chain (d : D) (before after : list (Option D R W))
    (apply : DB D -> io D R W (DB D * option error))
    (st st0 st1 st2 : S) (s1 s2 : DB D) (E target : error) :
  h _ (CallExists d) st = (Ok true, st0) ->
  run h (applyOptions {| dir := d; version := 0 |} before) st0 = (Ok s1, st1) ->
  run h (apply s1) st1 = ((s2, Some E), st2) ->
  errors_Is E target = true ->
  exists e,
    run h (Open dirString (Some d) (before ++ Some apply :: after)) st = (Err e, st2)
    /\ errors_Is e target = true.
Proof.
  intros Hex Hb Ha Ht. exists (WrapError "applying option failed: " E).
  rewrite (Open_run h dirString d _ st st0 Hex), applyOptions_app, Hb.
  cbn [applyOptions]. rewrite run_bind, Ha. cbn [snd fst run].
  repeat split. cbn [errors_Is]. rewrite Ht. now destruct (bool_decide _).
Qed.

(** X3. [Writer] returns an error of [Exists], and an error of [Mkdir],
    as it is; in both cases the handle keeps its counter (no version is
    used up) and [FileWriter] is not called. *)
Theorem Writer_io_errors (s : DB D) (key : string) (st st1 : S) (sd : D) :
  validateKey key = None ->
  h _ (CallDir (dir s) key) st = (sd, st1) ->
  (forall e st2,
      h _ (CallExists sd) st1 = (Err e, st2) ->
      run h (Writer s key) st = ((Err e, s), st2)
      /\ trace h (Writer (R := R) s key) st = [EvDir (dir s) key; EvExists sd])
  /\ (forall e st2 st3,
        h _ (CallExists sd) st1 = (Ok false, st2) ->
        h _ (CallMkdir sd) st2 = (Some e, st3) ->
        run h (Writer s key) st = ((Err e, s), st3)
        /\ trace h (Writer (R := R) s key) st
           = [EvDir (dir s) key; EvExists sd; EvMkdir sd]).
Proof.
  intros Hv Hd. unfold Writer. rewrite Hv. cbn. rewrite Hd. split.
  - intros e st2 Hex. rewrite Hex. cbn. auto.
  - intros e st2 st3 Hex Hmk. rewrite Hex. cbn. rewrite Hmk. cbn. auto.
Qed.

(** X4. The calls of a [Writer] that gets as far as creating the file,
    in order: [Dir], [Exists], [Mkdir] only when the directory was
    reported missing, then one [FileWriter] for the decimal text of the
    counter.  Whatever [FileWriter] answers, stream or error, is the
    result, and the counter has moved on by one. *)
Theorem Writer_calls (s : DB D) (key : string) (st st1 st2 st3 st4 : S) (sd : D)
    (dirExists : bool) (w : result W) :
  validateKey key = None ->
  h _ (CallDir (dir s) key) st = (sd, st1) ->
  h _ (CallExists sd) st1 = (Ok dirExists, st2) ->
  (if dirExists then st3 = st2 else h _ (CallMkdir sd) st2 = (None, st3)) ->
  h _ (CallFileWriter sd (Sprintf_d (version s))) st3 = (w, st4) ->
  run h (Writer s key) st
  = ((w, {| dir := dir s; version := wrapInt (version s + 1) |}), st4)
  /\ trace h (Writer (R := R) s key) st
     = [EvDir (dir s) key; EvExists sd]
         ++ (if dirExists then [] else [EvMkdir sd])
         ++ [EvFileWriter sd (Sprintf_d (version s))].
Proof.
  intros Hv Hd Hex Hmk Hfw. unfold Writer. rewrite Hv. cbn. rewrite Hd, Hex.
  destruct dirExists; cbn.
  - subst st3. rewrite Hfw. cbn. auto.
  - rewrite Hmk. cbn. rewrite Hfw. cbn. auto.
Qed.

(** X5. [Reader] only looks: for any key, against any [Dir] and in any
    state, it calls neither [Mkdir] nor [FileWriter], and it opens at most
    one file. *)
Theorem Reader_read_only (s : DB D) (key : string) (st : S) :
  forallb readOnly (trace h (Reader (W := W) s key) st) = true
  /\ (length (omap readFile (trace h (Reader (W := W) s key) st)) <= 1)%nat.
Proof.
  unfold Reader. destruct (validateKey key) as [e|]; cbn; [auto|].
  destruct (h _ (CallDir (dir s) key) st) as [sd st1]. cbn.
  destruct (h _ (CallExists sd) st1) as [[[|]|e] st2]; cbn; auto.
  destruct (h _ (CallListFiles sd) st2) as [[files|e] st3]; cbn; auto.
  destruct (youngestFilename (toFilenames files)) as [f|]; cbn; auto.
  destruct (h _ (CallFileReader sd (name f)) st3) as [r st4]. cbn. auto.
Qed.

(** X6. [Reader] returns an error of [Exists], and an error of
    [ListFiles], as it is, and opens no file. *)
Theorem Reader_io_errors (s : DB D) (key : string) (st st1 : S) (sd : D) :
  validateKey key = None ->
  h _ (CallDir (dir s) key) st = (sd, st1) ->
  (forall e st2,
      h _ (CallExists sd) st1 = (Err e, st2) ->
      run h (Reader (W := W) s key) st = (Err e, st2)
      /\ trace h (Reader (W := W) s key) st = [EvDir (dir s) key; EvExists sd])
  /\ (forall e st2 st3,
        h _ (CallExists sd) st1 = (Ok true, st2) ->
        h _ (CallListFiles sd) st2 = (Err e, st3) ->
        run h (Reader (W := W) s key) st = (Err e, st3)
        /\ trace h (Reader (W := W) s key) st
           = [EvDir (dir s) key; EvExists sd; EvListFiles sd]).
Proof.
  intros Hv Hd. unfold Reader. rewrite Hv. cbn. rewrite Hd. split.
  - intros e st2 Hex. rewrite Hex. cbn. auto.
  - intros e st2 st3 Hex Hl. rewrite Hex. cbn. rewrite Hl. cbn. auto.
Qed.

End Calls.

(** ** The names of version files *)

Lemma to_int_proper (z : Z) :
  Z.to_int z <> Decimal.Pos Decimal.Nil /\ Z.to_int z <> Decimal.Neg Decimal.Nil.
Proof.
  destruct z as [|p|p]; cbn; split; try discriminate; intros [= E];
    now apply DecimalPos.Unsigned.to_uint_nonnil in E.
Qed.

Lemma Sprintf_d_injective (u v : Z) : Sprintf_d u = Sprintf_d v -> u = v.
Proof.
  unfold Sprintf_d. intros E. apply (f_equal NilZero.int_of_string) in E.
  destruct (to_int_proper u) as [Hu1 Hu2]. destruct (to_int_proper v) as [Hv1 Hv2].
  rewrite !NilZero.isi in E by assumption.
  injection E as E. now apply DecimalZ.to_int_inj.
Qed.

Section Names.

Context {D : Type}.

(** X7. The names [nextVersionFilename] hands out: two different counter
    values never give the same name; the name of a counter that is not
    negative parses back to it; the counter left behind is one greater,
    except at the greatest [int], where it wraps around to the least. *)
Theorem nextVersionFilename_names (s1 s2 : DB D) :
  (fst (nextVersionFilename s1) = fst (nextVersionFilename s2) ->
   version s1 = version s2)
  /\ (0 <= version s1 -> parseVersion (fst (nextVersionFilename s1)) = Some (version s1))
  /\ (0 <= version s1 < maxInt ->
      version (snd (nextVersionFilename s1)) = version s1 + 1)
  /\ (version s1 = maxInt ->
      version (snd (nextVersionFilename s1)) = - 2 ^ 63)
  /\ dir (snd (nextVersionFilename s1)) = dir s1.
Proof.
  unfold nextVersionFilename. cbn [fst snd version dir].
  split; [apply Sprintf_d_injective|].
  split; [apply parseVersion_Sprintf_d|].
  split; [intros Hr; apply wrapInt_small; lia|].
  split; [intros ->; reflexivity|reflexivity].
Qed.

End Names.

(** ** Files and keys in the in-memory directory *)

Section Files.

Import MemDir.

#[local] Arguments fileReader : simpl never.
#[local] Arguments fileWriter : simpl never.
#[local] Arguments mkdir : simpl never.
#[local] Arguments exists_ : simpl never.
#[local] Arguments listFiles : simpl never.
#[local] Arguments Write : simpl never.

(** [Writer] on a taken file name: [FileWriter] refuses, once, and the
    store stays as it is; the counter has moved on. *)
Lemma Writer_run_taken (s : DB path) (key : string) (st : store) (c : bytes) :
  validateKey key = None ->
  filesOf (stateDir s key) st !! Sprintf_d (version s) = Some c ->
  run handle (Writer (R := reader) s key) st
  = ((Err (ForeignError "file already exists"),
      {| dir := dir s; version := wrapInt (version s + 1) |}), st)
  /\ trace handle (Writer (R := reader) (W := writer) s key) st
     = [EvDir (dir s) key; EvExists (stateDir s key);
        EvFileWriter (stateDir s key) (Sprintf_d (version s))].
Proof.
  intros Hv Ht. unfold Writer, filesOf, stateDir in *. rewrite Hv. cbn.
  unfold exists_. destruct (st !! (dir s ++ [key])) as [fs|] eqn:Ed; cbn in *.
  - unfold fileWriter. rewrite Ed, Ht. auto.
  - rewrite lookup_empty in Ht. discriminate.
Qed.

Lemma writeData_free (s : DB path) (key : string) (data : bytes) (st : store) :
  validateKey key = None ->
  filesOf (stateDir s key) st !! Sprintf_d (version s) = None ->
  writeData s key data st =
  (None,
   {| dir := dir s; version := wrapInt (version s + 1) |},
   <[stateDir s key := <[Sprintf_d (version s) := data]> (filesOf (stateDir s key) st)]> st).
Proof.
  intros Hv Hf. unfold writeData. rewrite (Writer_run s key st Hv Hf).
  unfold Write, Close. cbn [fst snd].
  rewrite lookup_insert_eq, lookup_insert_eq. cbn [app].
  now rewrite !insert_insert_eq.
Qed.

Lemma writeData_taken (s : DB path) (key : string) (data c : bytes) (st : store) :
  validateKey key = None ->
  filesOf (stateDir s key) st !! Sprintf_d (version s) = Some c ->
  writeData s key data st =
  (Some (ForeignError "file already exists"),
   {| dir := dir s; version := wrapInt (version s + 1) |}, st).
Proof.
  intros Hv Ht. unfold writeData.
  now rewrite (proj1 (Writer_run_taken s key st c Hv Ht)).
Qed.

(** What a write leaves of a file that was there. *)
Lemma writeData_keeps_file (s : DB path) (key : string) (data : bytes) (st : store)
    (d : path) (fs : files) (file : string) (c : bytes) :
  st !! d = Some fs ->
  fs !! file = Some c ->
  exists fs',
    snd (writeData s key data st) !! d = Some fs' /\ fs' !! file = Some c.
Proof.
  intros Hd Hf. destruct (validateKey key) as [e|] eqn:Hv.
  { rewrite (writeData_rejected s key data st e Hv). cbn. eauto. }
  destruct (filesOf (stateDir s key) st !! Sprintf_d (version s)) as [c0|] eqn:Ef.
  { rewrite (writeData_taken s key data c0 st Hv Ef). cbn. eauto. }
  rewrite (writeData_free s key data st Hv Ef). cbn [snd].
  destruct (decide (stateDir s key = d)) as [<-|Hne].
  - rewrite lookup_insert_eq. eexists. split; [reflexivity|].
    unfold filesOf in *. rewrite Hd in *. cbn in *.
    rewrite lookup_insert_ne; [exact Hf|]. intros E. rewrite E in Ef. congruence.
  - rewrite lookup_insert_ne by exact Hne. eauto.
Qed.

(** A write touches no directory but that of its key. *)
Lemma writeData_other_dir (s : DB path) (key : string) (data : bytes) (st : store)
    (d : path) :
  d <> stateDir s key ->
  snd (writeData s key data st) !! d = st !! d.
Proof.
  intros Hne. destruct (validateKey key) as [e|] eqn:Hv.
  { now rewrite (writeData_rejected s key data st e Hv). }
  destruct (filesOf (stateDir s key) st !! Sprintf_d (version s)) as [c0|] eqn:Ef.
  { now rewrite (writeData_taken s key data c0 st Hv Ef). }
  rewrite (writeData_free s key data st Hv Ef). cbn [snd].
  now rewrite lookup_insert_ne by congruence.
Qed.

Lemma writeData_dir (s : DB path) (key : string) (data : bytes) (st : store) :
  dir (snd (fst (writeData s key data st))) = dir s.
Proof.
  destruct (validateKey key) as [e|] eqn:Hv.
  { now rewrite (writeData_rejected s key data st e Hv). }
  destruct (filesOf (stateDir s key) st !! Sprintf_d (version s)) as [c0|] eqn:Ef.
  { now rewrite (writeData_taken s key data c0 st Hv Ef). }
  now rewrite (writeData_free s key data st Hv Ef).
Qed.

(** A read looks at the directory of its key only, and not at the
    counter. *)
Lemma readData_ext (s1 s2 : DB path) (key : string) (st1 st2 : store) :
  dir s1 = dir s2 ->
  st1 !! stateDir s1 key = st2 !! stateDir s1 key ->
  readData s1 key st1 = readData s2 key st2.
Proof.
  intros Hdir Hst. unfold readData, Reader, stateDir in *.
  destruct (validateKey key) as [e|]; [reflexivity|]. cbn. rewrite <- Hdir.
  unfold exists_. rewrite <- Hst.
  destruct (st1 !! (dir s1 ++ [key])) as [fs|] eqn:Ed; cbn; [|reflexivity].
  unfold listFiles. rewrite <- Hst, Ed. cbn.
  destruct (youngestFilename (toFilenames (listing fs))) as [f|]; cbn; [|reflexivity].
  unfold fileReader. now rewrite <- Hst, Ed.
Qed.

Lemma stateDir_inj (s : DB path) (k1 k2 : string) :
  stateDir s k1 = stateDir s k2 -> k1 = k2.
Proof. unfold stateDir. intros E. apply app_inv_head in E. congruence. Qed.

(** X8. Version files are immutable: whatever the key, the bytes, the
    counter and the store, a write (successful or not) leaves every file
    that was in the store in place, in its directory, with the bytes it
    had. *)
Theorem version_files_immutable (s : DB path) (key : string) (data : bytes)
    (st : store) (d : path) (fs : files) (file : string) (c : bytes) :
  st !! d = Some fs ->
  fs !! file = Some c ->
  exists fs',
    snd (writeData s key data st) !! d = Some fs' /\ fs' !! file = Some c.
Proof. apply writeData_keeps_file. Qed.

Lemma writeData_other_key (s : DB path) (written read : string) (data : bytes)
    (st : store) :
  written <> read ->
  readData (snd (fst (writeData s written data st))) read (snd (writeData s written data st))
  = readData s read st.
Proof.
  intros Hne. apply readData_ext; [apply writeData_dir|].
  unfold stateDir at 1 2. rewrite writeData_dir. fold (stateDir s read).
  apply writeData_other_dir.
  intros E. apply stateDir_inj in E. congruence.
Qed.

(** X9. Keys do not interfere: a write to one key, successful or not,
    changes nothing to what a read of another key delivers. *)
Theorem keys_do_not_interfere (s : DB path) (written read : string) (data : bytes)
    (st : store) :
  written <> read ->
  readData (snd (fst (writeData s written data st))) read (snd (writeData s written data st))
  = readData s read st.
Proof. apply writeData_other_key. Qed.

(** X10. A name that is taken: when the key's directory already holds a
    file with the name of the counter, [Writer] fails with the error of
    [FileWriter] after a single attempt (it does not try another name),
    the store is left as it was, and the number is used up all the
    same. *)
Theorem Writer_name_taken (s : DB path) (key : string) (data c : bytes) (st : store) :
  validateKey key = None ->
  filesOf (stateDir s key) st !! Sprintf_d (version s) = Some c ->
  writeData s key data st
  = (Some (ForeignError "file already exists"),
     {| dir := dir s; version := wrapInt (version s + 1) |}, st)
  /\ omap created (trace handle (Writer (R := reader) (W := writer) s key) st)
     = [Sprintf_d (version s)].
Proof.
  intros Hv Ht. split; [now apply (writeData_taken s key data c)|].
  now rewrite (proj2 (Writer_run_taken s key st c Hv Ht)).
Qed.

(** X11. The first write to a key: when the key has no directory yet,
    the write always succeeds, whatever the counter; it makes the
    directory, with the one file named after the counter, and leaves the
    other directories alone.  When the counter is not negative, a read of
    the key then delivers the bytes. *)
Theorem first_write_to_key (s : DB path) (key : string) (data : bytes) (st : store) :
  validateKey key = None ->
  st !! stateDir s key = None ->
  let s' := {| dir := dir s; version := wrapInt (version s + 1) |} in
  let st' := <[stateDir s key := {[ Sprintf_d (version s) := data ]}]> st in
  writeData s key data st = (None, s', st')
  /\ trace handle (Writer (R := reader) (W := writer) s key) st
     = [EvDir (dir s) key; EvExists (stateDir s key); EvMkdir (stateDir s key);
        EvFileWriter (stateDir s key) (Sprintf_d (version s))]
  /\ listFiles (stateDir s key) st' = Ok [Sprintf_d (version s)]
  /\ (0 <= version s -> readData s' key st' = Ok data).
Proof.
  intros Hv Hd s' st'.
  assert (Hf : filesOf (stateDir s key) st !! Sprintf_d (version s) = None).
  { unfold filesOf. rewrite Hd. apply lookup_empty. }
  assert (Hw : writeData s key data st = (None, s', st')).
  { rewrite (writeData_free s key data st Hv Hf). unfold filesOf. now rewrite Hd. }
  split; [exact Hw|]. split; [|split].
  - unfold Writer, stateDir in *. rewrite Hv. cbn. unfold exists_. rewrite Hd. cbn.
    unfold fileWriter, mkdir. rewrite Hd, lookup_insert_eq, lookup_empty. reflexivity.
  - unfold listFiles, st'. rewrite lookup_insert_eq. unfold listing.
    now rewrite map_to_list_singleton.
  - intros H0.
    assert (Ha : ahead s (stateDir s key) st).
    { split; [exact H0|]. intros fs file v Hfs. congruence. }
    destruct (writeData_readData s key data st Hv Ha) as (s2 & st2 & Hw2 & Hr).
    rewrite Hw in Hw2. injection Hw2 as <- <-. exact Hr.
Qed.

Lemma readData_after_writes (s : DB path) (writes : list (string * bytes))
    (key : string) (st : store) :
  (forall d, ahead s d st) ->
  version s + Z.of_nat (length writes) <= maxInt ->
  validateKey key = None ->
  readData (fst (writeAll s writes st)) key (snd (writeAll s writes st))
  = match lastWrite key writes with
    | Some payload => Ok payload
    | None => readData s key st
    end.
Proof.
  revert s st. induction writes as [|[k payload] rest IH]; intros s st Ha Hlen Hv;
    [reflexivity|].
  cbn [writeAll lastWrite length] in *.
  destruct (writeData_keeps_ahead s k payload st Ha) as [Ha' Hv']; [lia|].
  pose proof (writeData_other_key s k key payload st) as Hother.
  pose proof (writeData_readData s key payload st Hv (Ha _)) as Hsame.
  destruct (writeData s k payload st) as [[err s'] st'] eqn:Ew. cbn [fst snd] in *.
  rewrite (IH s' st' Ha') by (assumption || lia).
  destruct (lastWrite key rest) as [later|]; [reflexivity|].
  destruct (String.eqb_spec k key) as [->|Hne].
  - destruct Hsame as (s2 & st2 & Hw & Hr). rewrite Ew in Hw.
    injection Hw as _ <- <-. exact Hr.
  - now apply Hother.
Qed.

(** X12. One handle, many writes: after any series of writes through a
    handle whose counter is ahead of every stored version (and stays
    within the range of [int]), a read of a valid key delivers the bytes
    of the latest write to that key in the series, and what it delivered
    before the series when the series did not write the key.  Rejected
    keys in the series count for nothing. *)
Theorem read_latest_write (s : DB path) (writes : list (string * bytes))
    (key : string) (st : store) :
  (forall d, ahead s d st) ->
  version s + Z.of_nat (length writes) <= maxInt ->
  validateKey key = None ->
  readData (fst (writeAll s writes st)) key (snd (writeAll s writes st))
  = match lastWrite key writes with
    | Some payload => Ok payload
    | None => readData s key st
    end.
Proof. apply readData_after_writes. Qed.

(** X13. The counter stays ahead: a handle opened on a store without
    version files keeps, through any series of writes within the range of
    [int], a counter that is greater than every version stored in any
    directory; so the next write of a valid key finds its name free and
    succeeds. *)
Theorem counter_stays_ahead (root : path) (writes : list (string * bytes))
    (key : string) (data : bytes) (st : store) :
  (forall d fs file, st !! d = Some fs -> In file (listing fs) -> parseVersion file = None) ->
  Z.of_nat (length writes) <= maxInt ->
  validateKey key = None ->
  let s' := fst (writeAll (opened root) writes st) in
  let st' := snd (writeAll (opened root) writes st) in
  (forall d, ahead s' d st')
  /\ 0 <= version s' <= Z.of_nat (length writes)
  /\ fst (fst (writeData s' key data st')) = None.
Proof.
  intros Hnone Hlen Hv s' st'.
  assert (Ha0 : forall d, ahead (opened root) d st).
  { intros d. apply opened_ahead. intros fs file. apply Hnone. }
  assert (Ha : forall d, ahead s' d st').
  { apply writeAll_ahead; [exact Ha0|cbn; lia]. }
  split; [exact Ha|]. split.
  - split; [apply (Ha [])|]. subst s' st'. clear Ha Hv.
    assert (Hgen : forall ws s0 st0,
               (forall d, ahead s0 d st0) ->
               version s0 + Z.of_nat (length ws) <= maxInt ->
               version (fst (writeAll s0 ws st0)) <= version s0 + Z.of_nat (length ws)).
    { induction ws as [|[k payload] rest IH]; intros s0 st0 Hs0 Hl0;
        cbn [writeAll length fst] in *; [lia|].
      destruct (writeData_keeps_ahead s0 k payload st0 Hs0) as [Ha' Hv']; [lia|].
      destruct (writeData s0 k payload st0) as [[err s1] st1]. cbn [fst snd] in *.
      specialize (IH s1 st1 Ha'). lia. }
    specialize (Hgen writes (opened root) st Ha0). cbn in Hgen. cbn. lia.
  - now rewrite (writeData_run s' key data st' Hv (Ha _)).
Qed.

End Files.

(** ** Open and the nil options *)

Section NilOptions.

Context {D R W S : Type}.
Variable h : handler D R W S.
Variable dirString : D -> string.

Lemma applyOptions_nils (s : DB D) (options : list (Option D R W)) (st : S) :
  Forall (fun o => o = None) options ->
  run h (applyOptions s options) st = (Ok s, st)
  /\ trace h (applyOptions s options) st = [].
Proof.
  induction 1 as [|o rest Ho _ IH]; [auto|]. subst o. exact IH.
Qed.

(** X14. [Open] asks one thing of the directory: whether it exists.  With
    no options, or nil options only, a successful [Open] is that single
    call; the directory is neither made, listed, read nor written, and
    the handle starts with the counter at 0. *)
Theorem Open_only_checks (d : D) (options : list (Option D R W)) (st st' : S) :
  h _ (CallExists d) st = (Ok true, st') ->
  Forall (fun o => o = None) options ->
  run h (Open dirString (Some d) options) st = (Ok {| dir := d; version := 0 |}, st')
  /\ trace h (Open dirString (Some d) options) st = [EvExists d].
Proof.
  intros Hex Hnil.
  rewrite (Open_run h dirString d options st st' Hex),
          (Open_trace h dirString d options st st' Hex).
  destruct (applyOptions_nils {| dir := d; version := 0 |} options st' Hnil) as [-> ->].
  auto.
Qed.

End NilOptions.

(** ** The further properties at concrete inputs *)

Section MoreExamples.

Import MemDir.

Lemma emptyStore_no_versions (d : path) (fs : files) (file : string) :
  emptyStore !! d = Some fs -> In file (listing fs) -> parseVersion file = None.
Proof.
  unfold emptyStore. intros Hd Hin. exfalso.
  destruct (decide (db = d)) as [<-|Hne].
  - rewrite lookup_singleton_eq in Hd. injection Hd as <-.
    apply listing_In in Hin. rewrite lookup_empty in Hin. now destruct Hin.
  - rewrite lookup_singleton_ne in Hd by exact Hne. discriminate.
Qed.

Lemma emptyStore_ahead_all (d : path) : ahead (opened db) d emptyStore.
Proof. apply opened_ahead. intros fs file. apply emptyStore_no_versions. Qed.

Lemma Open_exists_error_witness :
  run (faulty true false false)
      (Open (R := reader) (W := writer) dirString (Some db) [skipVersion]) emptyStore
  = (Err ioError, emptyStore)
  /\ trace (faulty true false false)
       (Open (R := reader) (W := writer) dirString (Some db) [skipVersion]) emptyStore
     = [EvExists db].
Proof.
  apply (Open_exists_error (faulty true false false) dirString db [skipVersion]
           emptyStore emptyStore ioError).
  reflexivity.
Defined.

Lemma Open_option_error_chain_witness :
  exists e,
    run handle (Open dirString (Some db) ([skipVersion] ++ Some failingDeep :: [None]))
        emptyStore
    = (Err e, emptyStore)
    /\ errors_Is e (ForeignError "test-error") = true.
Proof.
  apply (Open_option_error_chain handle dirString db [skipVersion] [None] failingDeep
           emptyStore emptyStore emptyStore emptyStore
           {| dir := db; version := 1 |} {| dir := db; version := 1 |}
           (WrapError "option: " (ForeignError "test-error")) (ForeignError "test-error"));
    reflexivity.
Defined.

Lemma Writer_io_errors_witness :
  (run (faulty true false false) (Writer (R := reader) (opened db) "state") emptyStore
   = ((Err ioError, opened db), emptyStore)
   /\ trace (faulty true false false) (Writer (R := reader) (W := writer) (opened db) "state")
        emptyStore
      = [EvDir db "state"; EvExists ["db"; "state"]%string])
  /\ (run (faulty false true false) (Writer (R := reader) (opened db) "state") emptyStore
      = ((Err ioError, opened db), emptyStore)
      /\ trace (faulty false true false) (Writer (R := reader) (W := writer) (opened db) "state")
           emptyStore
         = [EvDir db "state"; EvExists ["db"; "state"]%string;
            EvMkdir ["db"; "state"]%string]).
Proof.
  split.
  - apply (proj1 (Writer_io_errors (R := reader) (faulty true false false) (opened db) "state"
                    emptyStore emptyStore ["db"; "state"]%string eq_refl eq_refl)
             ioError emptyStore).
    reflexivity.
  - apply (proj2 (Writer_io_errors (R := reader) (faulty false true false) (opened db) "state"
                    emptyStore emptyStore ["db"; "state"]%string eq_refl eq_refl)
             ioError emptyStore emptyStore); reflexivity.
Defined.

Lemma Writer_calls_witness :
  run handle (Writer (R := reader) (opened db) "state") emptyStore
  = ((Ok (["db"; "state"]%string, "0"%string),
      {| dir := db; version := wrapInt (0 + 1) |}),
     <[ ["db"; "state"]%string := {[ "0"%string := [] ]} ]> emptyStore)
  /\ trace handle (Writer (R := reader) (W := writer) (opened db) "state") emptyStore
     = [EvDir db "state"; EvExists ["db"; "state"]%string]
         ++ [EvMkdir ["db"; "state"]%string]
         ++ [EvFileWriter ["db"; "state"]%string (Sprintf_d 0)].
Proof.
  apply (Writer_calls (R := reader) handle (opened db) "state" emptyStore emptyStore emptyStore
           (<[ ["db"; "state"]%string := ∅ ]> emptyStore)
           (<[ ["db"; "state"]%string := {[ "0"%string := [] ]} ]> emptyStore)
           ["db"; "state"]%string false (Ok (["db"; "state"]%string, "0"%string)));
    reflexivity.
Defined.

Lemma Reader_io_errors_witness :
  (run (faulty true false false) (Reader (W := writer) (opened db) "state") corruptYoungest
   = (Err ioError, corruptYoungest)
   /\ trace (faulty true false false) (Reader (R := reader) (W := writer) (opened db) "state")
        corruptYoungest
      = [EvDir db "state"; EvExists ["db"; "state"]%string])
  /\ (run (faulty false false true) (Reader (W := writer) (opened db) "state") corruptYoungest
      = (Err ioError, corruptYoungest)
      /\ trace (faulty false false true) (Reader (R := reader) (W := writer) (opened db) "state")
           corruptYoungest
         = [EvDir db "state"; EvExists ["db"; "state"]%string;
            EvListFiles ["db"; "state"]%string]).
Proof.
  split.
  - apply (proj1 (Reader_io_errors (W := writer) (faulty true false false) (opened db) "state"
                    corruptYoungest corruptYoungest ["db"; "state"]%string eq_refl eq_refl)
             ioError corruptYoungest).
    reflexivity.
  - apply (proj2 (Reader_io_errors (W := writer) (faulty false false true) (opened db) "state"
                    corruptYoungest corruptYoungest ["db"; "state"]%string eq_refl eq_refl)
             ioError corruptYoungest corruptYoungest); reflexivity.
Defined.

Lemma nextVersionFilename_names_witness :
  parseVersion (fst (nextVersionFilename {| dir := db; version := 41 |})) = Some 41
  /\ version (snd (nextVersionFilename {| dir := db; version := 41 |})) = 41 + 1
  /\ version (snd (nextVersionFilename {| dir := db; version := maxInt |})) = - 2 ^ 63.
Proof.
  split; [|split].
  - apply (proj1 (proj2 (nextVersionFilename_names {| dir := db; version := 41 |}
                           {| dir := db; version := 41 |}))).
    vm_compute. discriminate.
  - apply (proj1 (proj2 (proj2 (nextVersionFilename_names {| dir := db; version := 41 |}
                                   {| dir := db; version := 41 |})))).
    vm_compute. split; [discriminate|reflexivity].
  - apply (proj1 (proj2 (proj2 (proj2 (nextVersionFilename_names
                                          {| dir := db; version := maxInt |}
                                          {| dir := db; version := maxInt |}))))).
    reflexivity.
Defined.

Lemma version_files_immutable_witness :
  exists fs',
    snd (writeData {| dir := db; version := 5 |} "state" data reopenedStore)
      !! ["db"; "state"]%string = Some fs'
    /\ fs' !! "5"%string = Some corruptData.
Proof.
  apply (version_files_immutable {| dir := db; version := 5 |} "state" data reopenedStore
           ["db"; "state"]%string {[ "5"%string := corruptData ]} "5" corruptData);
    reflexivity.
Defined.

Lemma keys_do_not_interfere_witness :
  readData (snd (fst (writeData (opened db) "other" data reopenedStore))) "state"
           (snd (writeData (opened db) "other" data reopenedStore))
  = readData (opened db) "state" reopenedStore.
Proof.
  apply (keys_do_not_interfere (opened db) "other" "state" data reopenedStore).
  discriminate.
Defined.

Lemma Writer_name_taken_witness :
  writeData {| dir := db; version := 5 |} "state" data reopenedStore
  = (Some (ForeignError "file already exists"),
     {| dir := db; version := wrapInt (5 + 1) |}, reopenedStore)
  /\ omap created (trace handle (Writer (R := reader) (W := writer)
                                   {| dir := db; version := 5 |} "state") reopenedStore)
     = [Sprintf_d 5].
Proof.
  apply (Writer_name_taken {| dir := db; version := 5 |} "state" data corruptData
           reopenedStore); reflexivity.
Defined.

Lemma first_write_to_key_witness :
  writeData (opened db) "state" data emptyStore
  = (None, {| dir := db; version := wrapInt (0 + 1) |},
     <[ ["db"; "state"]%string := {[ Sprintf_d 0 := data ]} ]> emptyStore)
  /\ readData {| dir := db; version := wrapInt (0 + 1) |} "state"
       (<[ ["db"; "state"]%string := {[ Sprintf_d 0 := data ]} ]> emptyStore)
     = Ok data.
Proof.
  destruct (first_write_to_key (opened db) "state" data emptyStore eq_refl eq_refl)
    as (Hw & _ & _ & Hr).
  split; [exact Hw|]. apply Hr. vm_compute. discriminate.
Defined.

Lemma read_latest_write_witness :
  readData (fst (writeAll (opened db) someWrites emptyStore)) "a"
           (snd (writeAll (opened db) someWrites emptyStore))
  = match lastWrite "a" someWrites with
    | Some payload => Ok payload
    | None => readData (opened db) "a" emptyStore
    end.
Proof.
  apply (read_latest_write (opened db) someWrites "a" emptyStore);
    [apply emptyStore_ahead_all|vm_compute; discriminate|reflexivity].
Defined.

(** The series of [someWrites]: the latest bytes of "a" are "old", "b"
    keeps its one write, and a key the series did not write is not
    found. *)
Example someWrites_reads :
  lastWrite "a" someWrites = Some olderData
  /\ readData (fst (writeAll (opened db) someWrites emptyStore)) "a"
              (snd (writeAll (opened db) someWrites emptyStore)) = Ok olderData
  /\ readData (fst (writeAll (opened db) someWrites emptyStore)) "b"
              (snd (writeAll (opened db) someWrites emptyStore)) = Ok intactData
  /\ readData (fst (writeAll (opened db) someWrites emptyStore)) "c"
              (snd (writeAll (opened db) someWrites emptyStore)) = Err DataNotFound.
Proof. repeat split; vm_compute; reflexivity. Qed.

Lemma counter_stays_ahead_witness :
  (forall d, ahead (fst (writeAll (opened db) someWrites emptyStore)) d
               (snd (writeAll (opened db) someWrites emptyStore)))
  /\ 0 <= version (fst (writeAll (opened db) someWrites emptyStore))
       <= Z.of_nat (length someWrites)
  /\ fst (fst (writeData (fst (writeAll (opened db) someWrites emptyStore)) "a" data
                 (snd (writeAll (opened db) someWrites emptyStore)))) = None.
Proof.
  apply (counter_stays_ahead db someWrites "a" data emptyStore);
    [apply emptyStore_no_versions|vm_compute; discriminate|reflexivity].
Defined.

Lemma Open_only_checks_witness :
  run handle (Open (R := reader) (W := writer) dirString (Some db) [None; None]) emptyStore
  = (Ok {| dir := db; version := 0 |}, emptyStore)
  /\ trace handle (Open (R := reader) (W := writer) dirString (Some db) [None; None]) emptyStore
     = [EvExists db].
Proof.
  apply (Open_only_checks handle dirString db [None; None] emptyStore emptyStore);
    [reflexivity|repeat constructor].
Defined.

End MoreExamples.
